(** * POS printer service: sequencer, connection manager and device adapters

    A shallow embedding of [src/lib/printQueue.ts], [src/lib/printerManager.ts]
    and the three adapters ([baseAdapter.ts], [serialAdapter.ts],
    [usbAdapter.ts], [mockAdapter.ts]), with the properties the specification
    states about them.

    Conventions.
    - A JavaScript string that is printed (the receipt payload) is the list of
      its UTF-16 code units; text that only ever ends up in an error message is
      a [string].
    - An [Error] object is the record of its [message].
    - A promise-returning method is a function from the state it runs in to
      its outcome ([Ok] = resolved, [Err] = rejected) and the state it leaves.
    - Whatever the operating system or the device answers is read from a
      script carried by the world, so every theorem holds for every behaviour
      of the hardware. *)

From Stdlib Require Import String Ascii ZArith List Bool Lia Arith DecimalString.
Import ListNotations.

Set Implicit Arguments.

(** ** Values shared by all components *)

(** A receipt payload: the UTF-16 code units of a JavaScript string. *)
Definition payload := list Z.

Record Error := mkError { message : string }.

Inductive result (A : Type) : Type :=
| Ok (a : A)
| Err (e : Error).
Arguments Ok {A} a.
Arguments Err {A} e.

Definition is_some {A : Type} (o : option A) : bool :=
  match o with Some _ => true | None => false end.

(** ** The job sequencer, [src/lib/printQueue.ts] *)

Module PrintQueue.

(** A queued job.  The pair [resolve]/[reject] of the promise that [enqueue]
    returned is named by the number of that promise. *)
Record Job := mkJob { data : payload; handle : nat }.

Inductive Settlement :=
| Resolved
| Rejected (e : Error).

(** What an observer of the queue sees. *)
Inductive Obs :=
| Called (d : payload)                 (* [this.printFunction(job.data)] is invoked *)
| Completed                            (* the awaited print promise has settled *)
| Settle (h : nat) (s : Settlement).   (* [job.resolve()] or [job.reject(err)] *)

(** The fields [queue] and [processing] of the class, the job the dispatch
    loop is suspended on at its [await] (the local [job] of the loop body),
    the number of promises handed out and the observations so far. *)
Record State := mkState {
  queue : list Job;
  processing : bool;
  awaiting : option Job;
  promises : nat;
  trace : list Obs
}.

Definition init : State := mkState [] false None 0 [].

Definition set_processing (b : bool) (s : State) : State :=
  mkState (queue s) b (awaiting s) (promises s) (trace s).

Definition settlement_of (r : result unit) : Settlement :=
  match r with Ok _ => Resolved | Err e => Rejected e end.

Definition queue_cleared : Error := mkError "Print queue was cleared".

Section ProcessQueue.
(** The call [this.processQueue()] of line 69, made by [processQueue]
    itself. *)
Variable again : State -> State.

(** Lines 46-70, from the test of the [while] to the next suspension: the
    head job is shifted off and the print function is called on its data
    (it returns a promise, as the one [index.ts] passes does, and the loop
    waits for it), or the loop is left. *)
Definition dispatch (s : State) : State :=
  match queue s with
  | job :: rest =>
      mkState rest (processing s) (Some job) (promises s)
              (trace s ++ [Called (data job)])
  | [] =>
      let s' := set_processing false s in
      if (0 <? length (queue s'))%nat then again s' else s'
  end.

(** Lines 39-45. *)
Definition processQueue_body (s : State) : State :=
  if processing s || (length (queue s) =? 0)%nat then s
  else dispatch (set_processing true s).
End ProcessQueue.

(** The recursive call of line 69 is never reached (the queue was empty one
    statement earlier, [dispatch_again_irrelevant]), so the recursion is
    closed with the identity; [processQueue_unfold] is the equation of the
    source. *)
Definition processQueue : State -> State := processQueue_body (fun s => s).

(** Lines 56-63, when the awaited promise settles with [r]. *)
Definition resume (r : result unit) (s : State) : option State :=
  match awaiting s with
  | None => None
  | Some job =>
      Some (dispatch processQueue
              (mkState (queue s) (processing s) None (promises s)
                       (trace s ++ [Completed; Settle (handle job) (settlement_of r)])))
  end.

(** Lines 24-34. *)
Definition enqueue (d : payload) (s : State) : State :=
  let s1 := mkState (queue s ++ [mkJob d (promises s)]) (processing s)
                    (awaiting s) (S (promises s)) (trace s) in
  if negb (processing s1) then processQueue s1 else s1.

(** Lines 90-95. *)
Definition clear (s : State) : State :=
  mkState [] (processing s) (awaiting s) (promises s)
          (trace s ++ map (fun j => Settle (handle j) (Rejected queue_cleared)) (queue s)).

Definition getQueueLength (s : State) : nat := length (queue s).
Definition isProcessing (s : State) : bool := processing s.

(** The turns of the event loop that touch the queue. *)
Inductive Event :=
| Enqueue (d : payload)
| Finish (r : result unit)   (* the print in flight ends with [r] *)
| Clear.

(** [None]: the event cannot happen in this state (nothing is in flight). *)
Definition step (s : State) (ev : Event) : option State :=
  match ev with
  | Enqueue d => Some (enqueue d s)
  | Finish r => resume r s
  | Clear => Some (clear s)
  end.

Fixpoint run (s : State) (evs : list Event) : option State :=
  match evs with
  | [] => Some s
  | ev :: evs' =>
      match step s ev with
      | Some s' => run s' evs'
      | None => None
      end
  end.

(** The payloads submitted by a list of events, in order. *)
Fixpoint submitted (evs : list Event) : list payload :=
  match evs with
  | [] => []
  | Enqueue d :: evs' => d :: submitted evs'
  | _ :: evs' => submitted evs'
  end.

Fixpoint no_clear (evs : list Event) : bool :=
  match evs with
  | [] => true
  | Clear :: _ => false
  | _ :: evs' => no_clear evs'
  end.

(** The payloads the print function was called with, in order. *)
Fixpoint calls (tr : list Obs) : list payload :=
  match tr with
  | [] => []
  | Called d :: tr' => d :: calls tr'
  | _ :: tr' => calls tr'
  end.

(** Scans a trace from a state in which a print is ([busy]) or is not in
    flight; [None] as soon as the print function is called while the
    previous call has not completed. *)
Fixpoint serial_from (busy : bool) (tr : list Obs) : option bool :=
  match tr with
  | [] => Some busy
  | Called _ :: tr' => if busy then None else serial_from true tr'
  | Completed :: tr' => if busy then serial_from false tr' else None
  | Settle _ _ :: tr' => serial_from busy tr'
  end.

Definition serial (tr : list Obs) : bool := is_some (serial_from false tr).

(** The settlements of one promise, in order. *)
Fixpoint settlements (h : nat) (tr : list Obs) : list Settlement :=
  match tr with
  | [] => []
  | Settle h' s :: tr' =>
      if Nat.eqb h h' then s :: settlements h tr' else settlements h tr'
  | _ :: tr' => settlements h tr'
  end.

(** The promises that are still to be settled: the one of the job in flight
    and those of the queued jobs. *)
Definition live (s : State) : list nat :=
  match awaiting s with Some j => [handle j] | None => [] end
  ++ map handle (queue s).

(** Jobs accepted and not yet finished. *)
Definition pending (s : State) : nat :=
  (length (queue s) + (if is_some (awaiting s) then 1 else 0))%nat.

(** What holds between two turns of the event loop when the payloads [sub]
    have been submitted and nothing was cleared. *)
Record Inv (sub : list payload) (s : State) : Prop := {
  inv_flag : processing s = is_some (awaiting s);
  inv_idle : awaiting s = None -> queue s = [];
  inv_fifo : calls (trace s) ++ map data (queue s) = sub;
  inv_serial : serial_from false (trace s) = Some (is_some (awaiting s))
}.

(** What holds between two turns of the event loop, [clear] included. *)
Record Wf (s : State) : Prop := {
  wf_flag : processing s = is_some (awaiting s);
  wf_idle : awaiting s = None -> queue s = [];
  wf_nodup : NoDup (live s);
  wf_bound : forall h, In h (live s) -> (h < promises s)%nat;
  wf_fresh : forall h, In h (live s) \/ (promises s <= h)%nat ->
                       settlements h (trace s) = []
}.

End PrintQueue.

(** ** [src/types/index.ts] *)

Module Types.

(** [interface] is typed ["usb" | "serial" | "mock"] but is filled from the
    environment, so any text can be in it; [usbName] and [serialPort] are
    optional; the two numbers are what [parseInt] read, integers. *)
Record PrinterConfig := mkConfig {
  interface : string;
  usbName : option string;
  serialPort : option string;
  maxRetries : Z;
  retryDelayMs : Z
}.

(** The interface [IPrinterAdapter], over the state [S] an implementation
    runs in (the adapter object and the device behind it). *)
Class IPrinterAdapter (S : Type) := {
  connect : S -> result unit * S;
  disconnect : S -> result unit * S;
  isConnected : S -> bool;
  print : payload -> S -> result unit * S
}.

End Types.

(** ** Text *)

(** The double quote of the messages that quote a name. *)
Definition dquote : string := String (ascii_of_nat 34) EmptyString.

Definition quoted (s : string) : string := (dquote ++ s ++ dquote)%string.

(** [`${n}`] for an integer [n]. *)
Definition string_of_Z (n : Z) : string := NilEmpty.string_of_int (Z.to_int n).

(** [!s] for a string. *)
Definition is_empty (s : string) : bool :=
  match s with EmptyString => true | _ => false end.

(** [hay] contains [needle]. *)
Definition embeds (needle hay : string) : Prop :=
  exists pre post : string, hay = (pre ++ needle ++ post)%string.

(** ** Node's [Buffer], as far as the serial adapter uses it *)

Module Buffer.
Local Open Scope Z_scope.

(** The UTF-8 bytes of a code point. *)
Definition encode_code_point (c : Z) : list Z :=
  if c <? 0x80 then [c]
  else if c <? 0x800 then
    [Z.lor 0xC0 (Z.shiftr c 6); Z.lor 0x80 (Z.land c 0x3F)]
  else if c <? 0x10000 then
    [Z.lor 0xE0 (Z.shiftr c 12);
     Z.lor 0x80 (Z.land (Z.shiftr c 6) 0x3F);
     Z.lor 0x80 (Z.land c 0x3F)]
  else
    [Z.lor 0xF0 (Z.shiftr c 18);
     Z.lor 0x80 (Z.land (Z.shiftr c 12) 0x3F);
     Z.lor 0x80 (Z.land (Z.shiftr c 6) 0x3F);
     Z.lor 0x80 (Z.land c 0x3F)].

Definition is_high_surrogate (u : Z) : bool := (0xD800 <=? u) && (u <=? 0xDBFF).
Definition is_low_surrogate (u : Z) : bool := (0xDC00 <=? u) && (u <=? 0xDFFF).

(** U+FFFD, written for a surrogate that has no partner. *)
Definition replacement : list Z := [0xEF; 0xBF; 0xBD].

(** [Buffer.from(s, "utf8")]: a surrogate pair is one code point of four
    bytes, a lone surrogate is replaced. *)
Fixpoint from_utf8 (s : payload) : list Z :=
  match s with
  | [] => []
  | u :: rest =>
      if is_high_surrogate u then
        match rest with
        | v :: rest' =>
            if is_low_surrogate v then
              encode_code_point (0x10000 + (u - 0xD800) * 0x400 + (v - 0xDC00))
              ++ from_utf8 rest'
            else replacement ++ from_utf8 rest
        | [] => replacement
        end
      else if is_low_surrogate u then replacement ++ from_utf8 rest
      else encode_code_point u ++ from_utf8 rest
  end.

(** [Buffer.from(bytes)] *)
Definition from_bytes (bytes : list Z) : list Z := bytes.

(** [Buffer.concat(list)] *)
Definition concat (bufs : list (list Z)) : list Z := List.concat bufs.

End Buffer.

(** ** The devices *)

(** What lies behind the adapters: the packages [@serialport/stream] and
    [node-thermal-printer], the console and the timers.  They are not code of
    the service; each operation the adapters use is given with the state it
    keeps (which port objects are open, what a printer object has buffered)
    and takes its success or failure from a script, so that nothing is assumed
    about how a device behaves. *)

Module World.

(** What reaches a transport, the console or a timer. *)
Inductive IO :=
| ConsoleLog (d : payload)
| Sleep (ms : Z)
| SerialNew (h : nat)
| SerialOpen (h : nat) (err : option string)
| SerialClose (h : nat) (err : option string)
| SerialWrite (h : nat) (buf : list Z) (err : option string)
| SerialDrain (h : nat) (err : option string)
| UsbNew (name : string)
| UsbProbe (answer : bool)
| UsbExecute (job : list payload) (err : option string).

(** [script]: the answers of the operating system to the next requests that
    can fail, [None] for success and [Some msg] for an error with that
    message (success once the script is used up).  [online]: the answers to
    the next [isPrinterConnected()] that do not throw.  [open_ports]: the
    serial port objects that are open; [created] of them were made so far.
    [io]: everything done, oldest first. *)
Record t := mk {
  script : list (option string);
  online : list bool;
  open_ports : list nat;
  created : nat;
  io : list IO
}.

Definition ask (w : t) : option string * t :=
  match script w with
  | [] => (None, w)
  | r :: rest => (r, mk rest (online w) (open_ports w) (created w) (io w))
  end.

Definition emit (e : IO) (w : t) : t :=
  mk (script w) (online w) (open_ports w) (created w) (io w ++ [e]).

Definition sleep (ms : Z) (w : t) : t := emit (Sleep ms) w.

(** [new SerialPortStream({..., autoOpen: false})] *)
Definition serial_new (w : t) : result nat * t :=
  let (r, w1) := ask w in
  match r with
  | Some msg => (Err (mkError msg), w1)
  | None =>
      let h := created w1 in
      (Ok h, emit (SerialNew h)
               (mk (script w1) (online w1) (open_ports w1) (S h) (io w1)))
  end.

(** [port.isOpen] *)
Definition serial_isOpen (h : nat) (w : t) : bool :=
  existsb (Nat.eqb h) (open_ports w).

(** [port.open(callback)]: the argument of the callback. *)
Definition serial_open (h : nat) (w : t) : option string * t :=
  let (r, w1) := ask w in
  match r with
  | Some msg => (r, emit (SerialOpen h r) w1)
  | None =>
      (r, emit (SerialOpen h r)
            (mk (script w1) (online w1) (open_ports w1 ++ [h]) (created w1) (io w1)))
  end.

(** [port.close(callback)] *)
Definition serial_close (h : nat) (w : t) : option string * t :=
  let (r, w1) := ask w in
  match r with
  | Some msg => (r, emit (SerialClose h r) w1)
  | None =>
      (r, emit (SerialClose h r)
            (mk (script w1) (online w1)
                (filter (fun h' => negb (Nat.eqb h h')) (open_ports w1))
                (created w1) (io w1)))
  end.

(** [port.write(buffer, callback)].  A write that fails makes the stream
    close the port itself before the callback gets the error, so the port
    object is no longer open when the adapter looks at it again. *)
Definition serial_write (h : nat) (buf : list Z) (w : t) : option string * t :=
  let (r, w1) := ask w in
  match r with
  | Some msg =>
      (r, emit (SerialWrite h buf r)
            (mk (script w1) (online w1)
                (filter (fun h' => negb (Nat.eqb h h')) (open_ports w1))
                (created w1) (io w1)))
  | None => (r, emit (SerialWrite h buf r) w1)
  end.

(** [port.drain(callback)] *)
Definition serial_drain (h : nat) (w : t) : option string * t :=
  let (r, w1) := ask w in (r, emit (SerialDrain h r) w1).

(** A [ThermalPrinter] object: the destination it was made for and the
    lines buffered for the next job. *)
Record ThermalPrinter := mkPrinter {
  destination : string;
  buffer : list payload
}.

(** [new ThermalPrinter({type, interface, options})] *)
Definition usb_new (name : string) (w : t) : result ThermalPrinter * t :=
  let (r, w1) := ask w in
  match r with
  | Some msg => (Err (mkError msg), w1)
  | None => (Ok (mkPrinter name []), emit (UsbNew name) w1)
  end.

(** [printer.isPrinterConnected()] *)
Definition usb_isPrinterConnected (w : t) : result bool * t :=
  let (r, w1) := ask w in
  match r with
  | Some msg => (Err (mkError msg), w1)
  | None =>
      match online w1 with
      | [] => (Ok true, emit (UsbProbe true) w1)
      | b :: rest =>
          (Ok b, emit (UsbProbe b)
                   (mk (script w1) rest (open_ports w1) (created w1) (io w1)))
      end
  end.

(** [printer.clear()] and [printer.println(data)] *)
Definition usb_clear (p : ThermalPrinter) : ThermalPrinter :=
  mkPrinter (destination p) [].
Definition usb_println (d : payload) (p : ThermalPrinter) : ThermalPrinter :=
  mkPrinter (destination p) (buffer p ++ [d]).

(** [printer.execute()] *)
Definition usb_execute (p : ThermalPrinter) (w : t) : option string * t :=
  let (r, w1) := ask w in (r, emit (UsbExecute (buffer p) r) w1).

(** The writes that reached a serial port, oldest first. *)
Fixpoint writes (l : list IO) : list (nat * list Z) :=
  match l with
  | [] => []
  | SerialWrite h buf _ :: l' => (h, buf) :: writes l'
  | _ :: l' => writes l'
  end.

(** The port objects [close] was called on, oldest first. *)
Fixpoint closes (l : list IO) : list nat :=
  match l with
  | [] => []
  | SerialClose h _ :: l' => h :: closes l'
  | _ :: l' => closes l'
  end.

End World.

(** ** [src/lib/adapters/baseAdapter.ts] *)

Module BaseAdapter.

(** Lines 40-44, on the field [connected]. *)
Definition ensureConnected (connected : bool) : result unit :=
  if negb connected then Err (mkError "Printer is not connected") else Ok tt.

End BaseAdapter.

(** ** [src/lib/adapters/mockAdapter.ts] (first part of [src/unnamed/part_000]) *)

Module MockAdapter.

Record t := mk { connected : bool; delayMs : Z }.

(** [new MockAdapter(delayMs)]; [None] is an argument left out. *)
Definition new (delayMs : option Z) : t :=
  mk false (match delayMs with Some ms => ms | None => 500%Z end).

Definition isConnected (a : t) : bool := connected a.

Definition connect (a : t) (w : World.t) : result unit * (t * World.t) :=
  let w1 := World.sleep (delayMs a) w in
  (Ok tt, (mk true (delayMs a), w1)).

Definition disconnect (a : t) (w : World.t) : result unit * (t * World.t) :=
  (Ok tt, (mk false (delayMs a), w)).

Definition print (d : payload) (a : t) (w : World.t) : result unit * (t * World.t) :=
  match BaseAdapter.ensureConnected (connected a) with
  | Err e => (Err e, (a, w))
  | Ok _ =>
      let w1 := World.emit (World.ConsoleLog d) w in
      let w2 := World.sleep (delayMs a) w1 in
      (Ok tt, (a, w2))
  end.

End MockAdapter.

(** ** [src/lib/adapters/usbAdapter.ts] (second part of [src/unnamed/part_000]) *)

Module USBAdapter.

Record t := mk {
  connected : bool;
  printer : option World.ThermalPrinter;
  printerName : string
}.

Definition new (printerName : string) : result t :=
  if is_empty printerName then Err (mkError "USB printer name is required")
  else Ok (mk false None printerName).

Definition isConnected (a : t) : bool := connected a.

(** The [catch] of [connect], lines 98-105 of [part_000]. *)
Definition connect_failed (a : t) (p : option World.ThermalPrinter) (e : Error)
  : result unit * t :=
  (Err (mkError ("Failed to connect to USB printer " ++ quoted (printerName a)
                 ++ ": " ++ message e)%string),
   mk false p (printerName a)).

Definition connect (a : t) (w : World.t) : result unit * (t * World.t) :=
  match World.usb_new (printerName a) w with
  | (Err e, w1) =>
      let (r, a') := connect_failed a (printer a) e in (r, (a', w1))
  | (Ok p, w1) =>
      match World.usb_isPrinterConnected w1 with
      | (Err e, w2) =>
          let (r, a') := connect_failed a (Some p) e in (r, (a', w2))
      | (Ok false, w2) =>
          let (r, a') :=
            connect_failed a (Some p)
              (mkError ("USB printer " ++ quoted (printerName a)
                        ++ " is not connected")%string) in
          (r, (a', w2))
      | (Ok true, w2) => (Ok tt, (mk true (Some p) (printerName a), w2))
      end
  end.

Definition disconnect (a : t) (w : World.t) : result unit * (t * World.t) :=
  (Ok tt, (mk false None (printerName a), w)).

Definition print (d : payload) (a : t) (w : World.t) : result unit * (t * World.t) :=
  match BaseAdapter.ensureConnected (connected a) with
  | Err e => (Err e, (a, w))
  | Ok _ =>
      match printer a with
      | None => (Err (mkError "Printer instance is not available"), (a, w))
      | Some p =>
          let p1 := World.usb_println d (World.usb_clear p) in
          let a1 := mk (connected a) (Some p1) (printerName a) in
          match World.usb_execute p1 w with
          | (Some msg, w1) =>
              (Err (mkError ("Failed to print: " ++ msg)%string), (a1, w1))
          | (None, w1) => (Ok tt, (a1, w1))
          end
      end
  end.

End USBAdapter.

(** ** [src/lib/adapters/serialAdapter.ts] *)

Module SerialAdapter.

Record t := mk {
  connected : bool;
  port : option nat;
  comPort : string;
  baudRate : Z
}.

(** [new SerialAdapter(comPort, baudRate?)] *)
Definition new (comPort : string) (baudRate : option Z) : result t :=
  if is_empty comPort then Err (mkError "COM port is required")
  else Ok (mk false None comPort
             (match baudRate with
              | Some b => if (b =? 0)%Z then 9600%Z else b
              | None => 9600%Z
              end)).

Definition isConnected (a : t) : bool := connected a.

Definition set (c : bool) (p : option nat) (a : t) : t :=
  mk c p (comPort a) (baudRate a).

(** Lines 30-65. *)
Definition connect (a : t) (w : World.t) : result unit * (t * World.t) :=
  match World.serial_new w with
  | (Err e, w1) =>
      (Err (mkError ("Failed to create serial port connection: " ++ message e)%string),
       (set false (port a) a, w1))
  | (Ok h, w1) =>
      match World.serial_open h w1 with
      | (Some msg, w2) =>
          (Err (mkError ("Failed to open serial port " ++ quoted (comPort a)
                         ++ ": " ++ msg)%string),
           (set false (Some h) a, w2))
      | (None, w2) => (Ok tt, (set true (Some h) a, w2))
      end
  end.

(** Lines 70-95. *)
Definition disconnect (a : t) (w : World.t) : result unit * (t * World.t) :=
  match port a with
  | None => (Ok tt, (set false None a, w))
  | Some h =>
      if negb (World.serial_isOpen h w) then (Ok tt, (set false None a, w))
      else
        match World.serial_close h w with
        | (Some msg, w1) =>
            (Err (mkError ("Failed to close serial port: " ++ msg)%string),
             (set false None a, w1))
        | (None, w1) => (Ok tt, (set false None a, w1))
        end
  end.

(** ESC @ and GS V A 0. *)
Definition initCommand : list Z := Buffer.from_bytes [0x1b; 0x40]%Z.
Definition cutCommand : list Z := Buffer.from_bytes [0x1d; 0x56; 0x41; 0x00]%Z.

(** The text ["\n\n"]. *)
Definition newlines : payload := [10; 10]%Z.

(** Lines 110-124. *)
Definition printBuffer (d : payload) : list Z :=
  Buffer.concat
    [initCommand; Buffer.from_utf8 d; Buffer.from_utf8 newlines; cutCommand].

(** Lines 101-145. *)
Definition print (d : payload) (a : t) (w : World.t) : result unit * (t * World.t) :=
  match BaseAdapter.ensureConnected (connected a) with
  | Err e => (Err e, (a, w))
  | Ok _ =>
      match port a with
      | None => (Err (mkError "Serial port is not open"), (a, w))
      | Some h =>
          if negb (World.serial_isOpen h w) then
            (Err (mkError "Serial port is not open"), (a, w))
          else
            match World.serial_write h (printBuffer d) w with
            | (Some msg, w1) =>
                (Err (mkError ("Failed to write to serial port: " ++ msg)%string),
                 (a, w1))
            | (None, w1) =>
                match World.serial_drain h w1 with
                | (Some msg, w2) =>
                    (Err (mkError ("Failed to drain serial port: " ++ msg)%string),
                     (a, w2))
                | (None, w2) => (Ok tt, (a, w2))
                end
            end
      end
  end.

End SerialAdapter.

(** ** The adapter a manager holds: one of the three, with its device *)

Inductive Adapter :=
| Mock (a : MockAdapter.t)
| Usb (a : USBAdapter.t)
| Serial (a : SerialAdapter.t).

Definition Device : Type := Adapter * World.t.

Definition lift {T : Type} (inj : T -> Adapter) (r : result unit * (T * World.t))
  : result unit * Device :=
  let '(x, (a, w)) := r in (x, (inj a, w)).

Definition adapter_connect (s : Device) : result unit * Device :=
  match s with
  | (Mock a, w) => lift Mock (MockAdapter.connect a w)
  | (Usb a, w) => lift Usb (USBAdapter.connect a w)
  | (Serial a, w) => lift Serial (SerialAdapter.connect a w)
  end.

Definition adapter_disconnect (s : Device) : result unit * Device :=
  match s with
  | (Mock a, w) => lift Mock (MockAdapter.disconnect a w)
  | (Usb a, w) => lift Usb (USBAdapter.disconnect a w)
  | (Serial a, w) => lift Serial (SerialAdapter.disconnect a w)
  end.

Definition adapter_isConnected (s : Device) : bool :=
  match fst s with
  | Mock a => MockAdapter.isConnected a
  | Usb a => USBAdapter.isConnected a
  | Serial a => SerialAdapter.isConnected a
  end.

Definition adapter_print (d : payload) (s : Device) : result unit * Device :=
  match s with
  | (Mock a, w) => lift Mock (MockAdapter.print d a w)
  | (Usb a, w) => lift Usb (USBAdapter.print d a w)
  | (Serial a, w) => lift Serial (SerialAdapter.print d a w)
  end.

#[export] Instance Device_adapter : Types.IPrinterAdapter Device := {
  Types.connect := adapter_connect;
  Types.disconnect := adapter_disconnect;
  Types.isConnected := adapter_isConnected;
  Types.print := adapter_print
}.

(** The serial port object the adapter refers to, if it has one. *)
Definition held_port (s : Device) : option nat :=
  match fst s with
  | Serial a => SerialAdapter.port a
  | _ => None
  end.

(** The transports that are open on the device side. *)
Definition open_transports (s : Device) : list nat := World.open_ports (snd s).

(** Nothing is leaked: every transport that is open is the one the adapter
    refers to. *)
Definition no_leak (s : Device) : Prop :=
  forall h : nat, In h (open_transports s) -> held_port s = Some h.

(** The adapter refers to a transport that is open. *)
Definition holds_open_transport (s : Device) : bool :=
  match held_port s with
  | Some h => World.serial_isOpen h (snd s)
  | None => false
  end.

(** ** The connection manager, [src/lib/printerManager.ts] *)

Module PrinterManager.
Import Types.

(** What the manager asks of its adapter and of the clock, and what it
    writes with [console.warn]. *)
Inductive Call :=
| CallConnect (r : result unit)
| CallDisconnect (r : result unit)
| CallPrint (d : payload) (r : result unit)
| Delay (ms : Z)
| Warn (retry : Z) (e : Error).

Section Manager.
Context {S : Type} {ops : IPrinterAdapter S}.

(** The fields [adapter] and [config], and the calls made so far. *)
Record t := mk {
  adapter : option S;
  config : PrinterConfig;
  log : list Call
}.

(** A method of the manager: its outcome and the manager it leaves. *)
Definition M (A : Type) : Type := t -> result A * t.

Definition ret {A : Type} (a : A) : M A := fun m => (Ok a, m).

Definition bind {A B : Type} (c : M A) (k : A -> M B) : M B :=
  fun m =>
    match c m with
    | (Ok a, m1) => k a m1
    | (Err e, m1) => (Err e, m1)
    end.

(** [try { body } catch (e) { handler e }] *)
Definition try_catch {A : Type} (body : M A) (handler : Error -> M A) : M A :=
  fun m =>
    match body m with
    | (Ok a, m1) => (Ok a, m1)
    | (Err e, m1) => handler e m1
    end.

Definition record (c : Call) (m : t) : t :=
  mk (adapter m) (config m) (log m ++ [c]).

(** Lines 42-47. *)
Definition connect : M unit :=
  fun m =>
    match adapter m with
    | None => (Err (mkError "Printer adapter is not initialized"), m)
    | Some a =>
        let (r, a') := Types.connect a in
        (r, mk (Some a') (config m) (log m ++ [CallConnect r]))
    end.

(** Lines 52-56. *)
Definition disconnect : M unit :=
  fun m =>
    match adapter m with
    | Some a =>
        let (r, a') := Types.disconnect a in
        (r, mk (Some a') (config m) (log m ++ [CallDisconnect r]))
    | None => (Ok tt, m)
    end.

(** Lines 109-111. *)
Definition isConnected (m : t) : bool :=
  match adapter m with
  | Some a => Types.isConnected a
  | None => false
  end.

(** Lines 117-119. *)
Definition delay (ms : Z) : M unit := fun m => (Ok tt, record (Delay ms) m).

(** [console.warn] of line 94. *)
Definition warn (retry : Z) (e : Error) : M unit :=
  fun m => (Ok tt, record (Warn retry e) m).

(** [this.adapter.print(data)], line 78. *)
Definition adapter_print (data : payload) : M unit :=
  fun m =>
    match adapter m with
    | None => (Err (mkError "Cannot read properties of null (reading 'print')"), m)
    | Some a =>
        let (r, a') := Types.print data a in
        (r, mk (Some a') (config m) (log m ++ [CallPrint data r]))
    end.

(** The error of lines 101-103. *)
Definition exhausted (k : Z) (lastError : option Error) : Error :=
  mkError ("Print failed after " ++ string_of_Z k ++ " attempts. Last error: "
           ++ match lastError with
              | Some e => if is_empty (message e) then "Unknown error" else message e
              | None => "Unknown error"
              end)%string.

(** Lines 89-95: the reconnect before the next attempt. *)
Definition reconnect (attempt : Z) : M unit :=
  try_catch (bind disconnect (fun _ => connect))
            (fun reconnectError => warn (attempt + 1) reconnectError).

(** Lines 84-96: what the [catch] of an attempt does after it has stored
    the error. *)
Definition after_failure (attempt : Z) : M unit :=
  fun m =>
    if (attempt <? maxRetries (config m))%Z then
      bind (delay (retryDelayMs (config m))) (fun _ => reconnect attempt) m
    else ret tt m.

(** Lines 76-104: the [for] loop from its test on, and the [throw] after
    it.  [fuel] bounds the iterations; [None] when it is used up. *)
Fixpoint retry_loop (fuel : nat) (data : payload) (attempt : Z)
         (lastError : option Error) (m : t) : option (result unit * t) :=
  if (attempt <=? maxRetries (config m))%Z then
    match fuel with
    | O => None
    | Datatypes.S fuel' =>
        match adapter_print data m with
        | (Ok _, m1) => Some (Ok tt, m1)
        | (Err e, m1) =>
            match after_failure attempt m1 with
            | (Ok _, m2) => retry_loop fuel' data (attempt + 1)%Z (Some e) m2
            | (Err e', m2) => Some (Err e', m2)
            end
        end
    end
  else Some (Err (exhausted (maxRetries (config m)) lastError), m).

(** Lines 63-104.  The loop runs at most [maxRetries] times, which is the
    fuel it gets ([print_total]). *)
Definition print (data : payload) (m : t) : option (result unit * t) :=
  match adapter m with
  | None => Some (Err (mkError "Printer adapter is not initialized"), m)
  | Some a =>
      match (if negb (Types.isConnected a) then connect m else (Ok tt, m)) with
      | (Err e, m1) => Some (Err e, m1)
      | (Ok _, m1) =>
          retry_loop (Z.to_nat (maxRetries (config m1))) data 1%Z None m1
      end
  end.

(** The outcomes of the adapter's [print] in a list of calls. *)
Fixpoint print_results (l : list Call) : list (result unit) :=
  match l with
  | [] => []
  | CallPrint _ r :: l' => r :: print_results l'
  | _ :: l' => print_results l'
  end.

Definition failed (r : result unit) : bool :=
  match r with Err _ => true | Ok _ => false end.

(** The error of the last failed [print] in a list of calls. *)
Fixpoint last_print_error (l : list Call) (acc : option Error) : option Error :=
  match l with
  | [] => acc
  | CallPrint _ (Err e) :: l' => last_print_error l' (Some e)
  | _ :: l' => last_print_error l' acc
  end.

(** The calls of [l] made on the adapter in state [a], one after the other:
    each call with the outcome the adapter gives it, and the state the
    adapter is left in.  A list of calls is what the adapter did from [a]
    exactly when making them on [a] gives the list back. *)
Fixpoint replay (l : list Call) (a : S) : list Call * S :=
  match l with
  | [] => ([], a)
  | c :: l' =>
      let (c', a1) :=
        match c with
        | CallConnect _ => let (r, a1) := Types.connect a in (CallConnect r, a1)
        | CallDisconnect _ => let (r, a1) := Types.disconnect a in (CallDisconnect r, a1)
        | CallPrint d _ => let (r, a1) := Types.print d a in (CallPrint d r, a1)
        | Delay ms => (Delay ms, a)
        | Warn retry e => (Warn retry e, a)
        end in
      let (l1, a2) := replay l' a1 in (c' :: l1, a2)
  end.

End Manager.

Arguments t S : clear implicits.

(** Lines 22-37, the adapter the constructor makes. *)
Definition initializeAdapter (cfg : PrinterConfig) : result Adapter :=
  if String.eqb (interface cfg) "mock" then
    Ok (Mock (MockAdapter.new (Some (retryDelayMs cfg))))
  else if String.eqb (interface cfg) "usb" then
    match usbName cfg with
    | Some name =>
        if is_empty name then
          Err (mkError ("USB printer name is required when PRINTER_INTERFACE is "
                        ++ quoted "usb")%string)
        else
          match USBAdapter.new name with
          | Ok a => Ok (Usb a)
          | Err e => Err e
          end
    | None =>
        Err (mkError ("USB printer name is required when PRINTER_INTERFACE is "
                      ++ quoted "usb")%string)
    end
  else if String.eqb (interface cfg) "serial" then
    match serialPort cfg with
    | Some name =>
        if is_empty name then
          Err (mkError ("Serial port is required when PRINTER_INTERFACE is "
                        ++ quoted "serial")%string)
        else
          match SerialAdapter.new name None with
          | Ok a => Ok (Serial a)
          | Err e => Err e
          end
    | None =>
        Err (mkError ("Serial port is required when PRINTER_INTERFACE is "
                      ++ quoted "serial")%string)
    end
  else
    Err (mkError ("Invalid printer interface: " ++ interface cfg ++ ". Must be "
                  ++ quoted "usb" ++ ", " ++ quoted "serial" ++ ", or "
                  ++ quoted "mock")%string).

(** Lines 13-16: [new PrinterManager(config)], with the device [w] the
    adapter will talk to. *)
Definition new (cfg : PrinterConfig) (w : World.t) : result (t Device) :=
  match initializeAdapter cfg with
  | Ok a => Ok (mk (Some (a, w)) cfg [])
  | Err e => Err e
  end.

Local Open Scope Z_scope.


(** The calls of one reconnect step (lines 84-95) before retry number
    [retry]: the delay, [disconnect()], then [connect()] if [disconnect()]
    returned, and a warning if either threw. *)
Inductive reconnect_calls (ms retry : Z) : list Call -> Prop :=
| rc_reconnected :
    reconnect_calls ms retry [Delay ms; CallDisconnect (Ok tt); CallConnect (Ok tt)]
| rc_connect_failed (e : Error) :
    reconnect_calls ms retry
      [Delay ms; CallDisconnect (Ok tt); CallConnect (Err e); Warn retry e]
| rc_disconnect_failed (e : Error) :
    reconnect_calls ms retry [Delay ms; CallDisconnect (Err e); Warn retry e].

(** The calls made by the retry loop entered at [attempt] with [lastError]
    and its outcome, for [maxRetries = k] and [retryDelayMs = ms]. *)
Inductive loop_calls (k ms : Z) (d : payload)
  : Z -> option Error -> list Call -> result unit -> Prop :=
| lc_exhausted (attempt : Z) (lastError : option Error) :
    k < attempt ->
    loop_calls k ms d attempt lastError [] (Err (exhausted k lastError))
| lc_printed (attempt : Z) (lastError : option Error) :
    attempt <= k ->
    loop_calls k ms d attempt lastError [CallPrint d (Ok tt)] (Ok tt)
| lc_last_failed (attempt : Z) (lastError : option Error) (e : Error) :
    attempt = k ->
    loop_calls k ms d attempt lastError
               [CallPrint d (Err e)] (Err (exhausted k (Some e)))
| lc_retry (attempt : Z) (lastError : option Error) (e : Error)
           (rc l : list Call) (r : result unit) :
    attempt < k ->
    reconnect_calls ms (attempt + 1) rc ->
    loop_calls k ms d (attempt + 1) (Some e) l r ->
    loop_calls k ms d attempt lastError (CallPrint d (Err e) :: rc ++ l) r.

End PrinterManager.

(** ** The service, [src/index.ts] *)

Module Server.
Import Types.

(** The variables of [process.env] the service reads. *)
Record Env := mkEnv {
  NODE_ENV : option string;
  DEV_MODE : option string;
  PRINT_KEY_var : option string;
  PRINTER_INTERFACE : option string;
  PRINTER_USB_NAME : option string;
  PRINTER_SERIAL_PORT : option string;
  MAX_RETRIES : option string;
  RETRY_DELAY_MS : option string
}.

(** A string or [undefined] used as a condition. *)
Definition truthy (v : option string) : bool :=
  match v with
  | Some s => negb (is_empty s)
  | None => false
  end.

(** [a || b] *)
Definition or_else (a b : option string) : option string :=
  if truthy a then a else b.

(** [v === s] for a string [s]. *)
Definition is_string (v : option string) (s : string) : bool :=
  match v with
  | Some x => String.eqb x s
  | None => false
  end.

(** Lines 16-19. *)
Definition isDevelopment (env : Env) : bool :=
  is_string (NODE_ENV env) "development"
  || is_string (DEV_MODE env) "true"
  || negb (truthy (NODE_ENV env)).

(** Lines 22-23. *)
Definition PRINT_KEY (env : Env) : option string :=
  or_else (PRINT_KEY_var env)
          (if isDevelopment env then Some "dev-key-12345"%string else None).

(** Lines 36-58. *)
Definition selectedInterface (env : Env) : string :=
  let selected :=
    match or_else (PRINTER_INTERFACE env) (Some "usb"%string) with
    | Some s => s
    | None => "usb"%string
    end in
  if isDevelopment env then
    if String.eqb selected "usb" && negb (truthy (PRINTER_USB_NAME env)) then
      "mock"%string
    else if String.eqb selected "serial" && negb (truthy (PRINTER_SERIAL_PORT env)) then
      "mock"%string
    else if negb (truthy (PRINTER_INTERFACE env)) then "mock"%string
    else selected
  else selected.

Section Startup.
(** [parseInt(text, 10)], where it reads an integer. *)
Variable parseInt : string -> Z.

Definition text_or (v : option string) (default : string) : string :=
  match or_else v (Some default) with
  | Some s => s
  | None => default
  end.

(** Lines 60-66. *)
Definition printerConfig (env : Env) : PrinterConfig :=
  mkConfig (selectedInterface env)
           (PRINTER_USB_NAME env)
           (PRINTER_SERIAL_PORT env)
           (parseInt (text_or (MAX_RETRIES env) "3"))
           (parseInt (text_or (RETRY_DELAY_MS env) "1000")).

(** How the checks at the top level of the module end: [process.exit(code)],
    or the module goes on, to make the queue and start the server, with the
    key requests are checked against and the manager. *)
Inductive Boot :=
| Exit (code : Z)
| Running (key : option string) (manager : PrinterManager.t Device).

(** Lines 26-29 and 34-85. *)
Definition boot (env : Env) (w : World.t) : Boot :=
  if negb (truthy (PRINT_KEY env)) && negb (isDevelopment env) then Exit 1
  else
    match PrinterManager.new (printerConfig env) w with
    | Ok m => Running (PRINT_KEY env) m
    | Err _ => Exit 1
    end.
End Startup.

(** A property of the parsed body: not there, there with a value that is not
    a string, or a string. *)
Inductive Field (T : Type) : Type :=
| Missing
| NotAString
| Text (s : T).
Arguments Missing {T}.
Arguments NotAString {T}.
Arguments Text {T} s.

(** [req.body] after [express.json()] and [express.text()]: a string, an
    object (of which the handler reads [key] and [data]), or anything else. *)
Inductive Body :=
| BodyString (s : payload)
| BodyObject (key : Field string) (data : Field payload)
| BodyOther.

Record Request := mkRequest {
  headers : string -> option string;
  body : Body
}.

(** [value === PRINT_KEY] for a property of the body. *)
Definition field_is (value : Field string) (key : option string) : bool :=
  match value, key with
  | Missing, None => true
  | Text s, Some k => String.eqb s k
  | _, _ => false
  end.

(** Lines 102-126. *)
Definition validatePrintKey (key : option string) (req : Request) : bool :=
  let headerKey := or_else (headers req "x-print-key") (headers req "X-Print-Key") in
  if truthy headerKey
     && match headerKey, key with
        | Some h, Some k => String.eqb h k
        | _, _ => false
        end
  then true
  else
    match body req with
    | BodyObject k _ => field_is k key
    | _ => false
    end.

(** White space and line terminators, what [trim()] removes. *)
Definition is_space (u : Z) : bool :=
  ((9 <=? u) && (u <=? 13) || (u =? 0x20) || (u =? 0xA0) || (u =? 0x1680)
   || (0x2000 <=? u) && (u <=? 0x200A) || (u =? 0x2028) || (u =? 0x2029)
   || (u =? 0x202F) || (u =? 0x205F) || (u =? 0x3000) || (u =? 0xFEFF))%Z.

Fixpoint trimStart (s : payload) : payload :=
  match s with
  | [] => []
  | u :: rest => if is_space u then trimStart rest else s
  end.

(** [s.trim()] *)
Definition trim (s : payload) : payload := rev (trimStart (rev (trimStart s))).

Record PrintResponse := mkResponse {
  success : bool;
  response_message : string;
  error : option string
}.

(** What the handler of [POST /print] does with a request: it answers at
    once with a status and a body, or it hands the data to the queue and
    waits. *)
Inductive Step :=
| Replied (status : Z) (response : PrintResponse)
| Enqueued (printData : payload).

(** Lines 170-191. *)
Definition submit (printData : payload) : Step :=
  if match printData with [] => true | _ => false end
     || (length (trim printData) =? 0)%nat
  then Replied 400 (mkResponse false "Invalid request" (Some "Print data cannot be empty"%string))
  else Enqueued printData.

(** Lines 131-191. *)
Definition print_route (key : option string) (req : Request) : Step :=
  if negb (validatePrintKey key req) then
    Replied 401 (mkResponse false "Unauthorized" (Some "Invalid or missing print key"%string))
  else
    match body req with
    | BodyString s => submit s
    | BodyObject _ (Text (u :: rest)) => submit (u :: rest)
    | BodyObject _ _ =>
        Replied 400 (mkResponse false "Invalid request"
                       (Some ("Print data is required in " ++ quoted "data" ++ " field")%string))
    | BodyOther =>
        Replied 400 (mkResponse false "Invalid request" (Some "Print data is required"%string))
    end.

(** Lines 193-207: the answer once the promise of [enqueue] is settled. *)
Definition print_route_settled (s : PrintQueue.Settlement) : Z * PrintResponse :=
  match s with
  | PrintQueue.Resolved =>
      (200%Z, mkResponse true "Print job completed successfully" None)
  | PrintQueue.Rejected e =>
      (500%Z, mkResponse false "Print job failed" (Some (message e)))
  end.

(** Lines 232-240, the error handling middleware. *)
Definition error_middleware (err : Error) : Z * PrintResponse :=
  (500%Z, mkResponse false "Internal server error" (Some (message err))).

(** A [POST /print] as it comes through the middleware of lines 94-97:
    [express.json()] and [express.text()] give the handler [req.body], or
    they hand an error to the error handling middleware (for a body that is
    not valid JSON, for one) and the handler is not run. *)
Definition post_print (key : option string) (hdrs : string -> option string)
           (parsed : result Body) : Step :=
  match parsed with
  | Err err =>
      let (status, response) := error_middleware err in Replied status response
  | Ok b => print_route key (mkRequest hdrs b)
  end.

End Server.

(** ** The queue wired to the manager, [src/index.ts] lines 88-90 *)

Module Wiring.

(** The queue and the manager its print function calls. *)
Definition Service : Type := (PrintQueue.State * PrinterManager.t Device)%type.

(** The print in flight, [printerManager.print(job.data)], runs to its end
    and the dispatch loop resumes with its outcome.  [None]: nothing is in
    flight. *)
Definition finish_print (st : Service) : option Service :=
  let (q, m) := st in
  match PrintQueue.awaiting q with
  | None => None
  | Some job =>
      match PrinterManager.print (PrintQueue.data job) m with
      | None => None
      | Some (r, m') =>
          match PrintQueue.resume r q with
          | Some q' => Some (q', m')
          | None => None
          end
      end
  end.

Fixpoint finish_prints (n : nat) (st : Service) : option Service :=
  match n with
  | O => Some st
  | S n' =>
      match finish_print st with
      | Some st' => finish_prints n' st'
      | None => None
      end
  end.

End Wiring.

(** ** Vocabulary for the ledger of promises *)

Module Ledger.
Import PrintQueue.

(** [l1] is [l2] with some elements left out, order kept. *)
Inductive subseq {A : Type} : list A -> list A -> Prop :=
| subseq_nil : subseq [] []
| subseq_skip (x : A) (l1 l2 : list A) : subseq l1 l2 -> subseq l1 (x :: l2)
| subseq_keep (x : A) (l1 l2 : list A) : subseq l1 l2 -> subseq (x :: l1) (x :: l2).

(** Every promise handed out that is no longer live was settled once. *)
Definition settled_once (s : State) : Prop :=
  forall h : nat,
    (h < promises s)%nat -> ~ In h (live s) ->
    length (settlements h (trace s)) = 1%nat.

End Ledger.

(** ** Vocabulary for the calls of the manager *)

Module CallLog.
Import PrinterManager.

(** The waits in a list of calls, and the number of [disconnect()] calls. *)
Fixpoint delays (l : list Call) : list Z :=
  match l with
  | [] => []
  | Delay ms :: l' => ms :: delays l'
  | _ :: l' => delays l'
  end.

Fixpoint disconnects (l : list Call) : nat :=
  match l with
  | [] => 0
  | CallDisconnect _ :: l' => S (disconnects l')
  | _ :: l' => disconnects l'
  end.

End CallLog.

(** ** Concrete devices and managers *)

Module Examples.
Import Types.

(** The receipt "Hi". *)
Definition receipt : payload := [72; 105]%Z.

(** A serial adapter on COM3 as [new SerialAdapter("COM3")] leaves it, and the
    same adapter connected through port object 0. *)
Definition serial_fresh : SerialAdapter.t := SerialAdapter.mk false None "COM3" 9600.
Definition serial_connected : SerialAdapter.t :=
  SerialAdapter.mk true (Some 0%nat) "COM3" 9600.

(** A world in which nothing was opened yet, and one in which port object 0
    is open; the operating system answers as [script] says. *)
Definition world_idle (script : list (option string)) : World.t :=
  World.mk script [] [] 0 [].
Definition world_port0 (script : list (option string)) : World.t :=
  World.mk script [] [0%nat] 1 [].

Definition serial_config (k : Z) : PrinterConfig :=
  mkConfig "serial" None (Some "COM3"%string) k 1000.

Definition device_connected (script : list (option string)) : Device :=
  (Serial serial_connected, world_port0 script).
Definition device_fresh (script : list (option string)) : Device :=
  (Serial serial_fresh, world_idle script).

Definition manager_connected (k : Z) (script : list (option string))
  : PrinterManager.t Device :=
  PrinterManager.mk (Some (device_connected script)) (serial_config k) [].
Definition manager_fresh (k : Z) (script : list (option string))
  : PrinterManager.t Device :=
  PrinterManager.mk (Some (device_fresh script)) (serial_config k) [].

(** Two attempts: the first write is accepted but not drained, the port is
    closed, a new one is made and opened, and the second write is accepted
    and not drained either. *)
Definition script_two_failures : list (option string) :=
  [None; Some "EIO"%string; None; None; None; None; Some "EIO"%string].

(** The write is accepted, the drain fails, and then closing the port
    fails. *)
Definition script_close_fails : list (option string) :=
  [None; Some "EIO"%string; Some "EBUSY"%string].

(** The port object is made, opening it fails. *)
Definition script_open_fails : list (option string) :=
  [None; Some "Access denied"%string].

(** Three receipts submitted back to back, and the queue they leave. *)
Definition receipt_A : payload := [65]%Z.
Definition receipt_B : payload := [66]%Z.
Definition receipt_C : payload := [67]%Z.

Definition three_submissions : list PrintQueue.Event :=
  [PrintQueue.Enqueue receipt_A; PrintQueue.Enqueue receipt_B;
   PrintQueue.Enqueue receipt_C].

Definition queue_after_three : PrintQueue.State :=
  PrintQueue.mkState
    [PrintQueue.mkJob receipt_B 1; PrintQueue.mkJob receipt_C 2] true
    (Some (PrintQueue.mkJob receipt_A 0)) 3 [PrintQueue.Called receipt_A].

End Examples.

(** * Properties *)

(** ** Text *)

Lemma string_app_nil_r (s : string) : (s ++ "")%string = s.
Proof. induction s as [|c s IH]; simpl; [reflexivity|]. rewrite IH. reflexivity. Qed.

Lemma string_app_assoc (s1 s2 s3 : string) :
  ((s1 ++ s2) ++ s3)%string = (s1 ++ s2 ++ s3)%string.
Proof. induction s1 as [|c s1 IH]; simpl; [reflexivity|]. rewrite IH. reflexivity. Qed.

(** ** The job sequencer *)

Module PrintQueueFacts.
Import PrintQueue.

(** The call of line 69 is dead: whatever it would do, the dispatch loop
    does the same. *)
Lemma dispatch_again_irrelevant (f g : State -> State) (s : State) :
  dispatch f s = dispatch g s.
Proof.
  unfold dispatch. destruct (queue s) as [|job rest] eqn:Hq; [|reflexivity].
  simpl. rewrite Hq. reflexivity.
Qed.

(** [processQueue] solves the recursive equation of the source. *)
Lemma processQueue_unfold (s : State) :
  processQueue s = processQueue_body processQueue s.
Proof.
  unfold processQueue at 1. unfold processQueue_body.
  destruct (processing s || (length (queue s) =? 0)%nat); [reflexivity|].
  apply dispatch_again_irrelevant.
Qed.

Lemma calls_app (t1 t2 : list Obs) : calls (t1 ++ t2) = calls t1 ++ calls t2.
Proof.
  induction t1 as [|o t1 IH]; simpl; [reflexivity|].
  destruct o; simpl; rewrite IH; reflexivity.
Qed.

Lemma serial_from_app (t1 t2 : list Obs) (b : bool) :
  serial_from b (t1 ++ t2) =
  match serial_from b t1 with
  | Some b' => serial_from b' t2
  | None => None
  end.
Proof.
  revert b. induction t1 as [|o t1 IH]; intros b; simpl; [reflexivity|].
  destruct o; simpl; try apply IH; destruct b; simpl; auto.
Qed.

Lemma settlements_app (h : nat) (t1 t2 : list Obs) :
  settlements h (t1 ++ t2) = settlements h t1 ++ settlements h t2.
Proof.
  induction t1 as [|o t1 IH]; simpl; [reflexivity|].
  destruct o; simpl; try apply IH.
  destruct (Nat.eqb h h0); simpl; rewrite IH; reflexivity.
Qed.

Lemma Inv_init : Inv [] init.
Proof. split; reflexivity. Qed.

Lemma Inv_enqueue (sub : list payload) (s : State) (d : payload) :
  Inv sub s -> Inv (sub ++ [d]) (enqueue d s).
Proof.
  intros [Hflag Hidle Hfifo Hser]. unfold enqueue. simpl.
  destruct (awaiting s) as [j|] eqn:Ha.
  - rewrite Hflag. simpl. split; simpl; rewrite ?Ha; auto.
    + discriminate.
    + rewrite map_app, app_assoc, Hfifo. reflexivity.
  - rewrite Hflag. simpl. rewrite (Hidle eq_refl) in *. simpl in *.
    unfold processQueue, processQueue_body, dispatch. simpl. split; simpl.
    + reflexivity.
    + discriminate.
    + rewrite calls_app. simpl. rewrite !app_nil_r in *. rewrite Hfifo. reflexivity.
    + rewrite serial_from_app, Hser. reflexivity.
Qed.

Lemma Inv_resume (sub : list payload) (s s' : State) (r : result unit) :
  Inv sub s -> resume r s = Some s' -> Inv sub s'.
Proof.
  intros [Hflag Hidle Hfifo Hser]. unfold resume.
  destruct (awaiting s) as [j|] eqn:Ha; [|discriminate].
  intros H. injection H as <-. unfold dispatch. simpl in *.
  destruct (queue s) as [|j' rest] eqn:Hq; simpl in *.
  - split; simpl; auto.
    + rewrite calls_app. simpl. rewrite app_nil_r. exact Hfifo.
    + rewrite serial_from_app, Hser. reflexivity.
  - split; simpl; auto.
    + discriminate.
    + rewrite !calls_app. simpl. rewrite app_nil_r. rewrite <- Hfifo.
      rewrite <- app_assoc. reflexivity.
    + rewrite !serial_from_app, Hser. reflexivity.
Qed.

Lemma Inv_run (evs : list Event) :
  forall (sub : list payload) (s s' : State),
    no_clear evs = true -> Inv sub s -> run s evs = Some s' ->
    Inv (sub ++ submitted evs) s'.
Proof.
  induction evs as [|ev evs IH]; intros sub s s' Hnc Hinv Hrun; simpl in *.
  - injection Hrun as <-. rewrite app_nil_r. exact Hinv.
  - destruct ev as [d|r|]; simpl in *; try discriminate.
    + replace (sub ++ d :: submitted evs) with ((sub ++ [d]) ++ submitted evs)
        by (rewrite <- app_assoc; reflexivity).
      apply (IH _ (enqueue d s)); auto using Inv_enqueue.
    + destruct (resume r s) as [s1|] eqn:Hr; [|discriminate].
      apply (IH _ s1); auto. apply (Inv_resume r Hinv Hr).
Qed.

Lemma pending_resume (s s' : State) (r : result unit) :
  resume r s = Some s' -> S (pending s') = pending s.
Proof.
  unfold resume, pending.
  destruct (awaiting s) as [j|] eqn:Ha; [|discriminate].
  intros H. injection H as <-. unfold dispatch. simpl.
  destruct (queue s) as [|j' rest] eqn:Hq; simpl; lia.
Qed.

(** Every accepted job is dispatched: as many completions as there are
    pending jobs, whatever their outcomes, empty the queue. *)
Lemma drain (outcomes : list (result unit)) :
  forall (sub : list payload) (s : State),
    Inv sub s -> length outcomes = pending s ->
    exists s', run s (map Finish outcomes) = Some s' /\ Inv sub s' /\
               queue s' = [] /\ awaiting s' = None.
Proof.
  induction outcomes as [|r outcomes IH]; intros sub s Hinv Hlen; simpl in *.
  - exists s. unfold pending in Hlen.
    destruct (awaiting s) eqn:Ha; simpl in Hlen; [lia|].
    split; [reflexivity|]. split; [exact Hinv|]. split; [|reflexivity].
    apply (inv_idle Hinv Ha).
  - destruct (resume r s) as [s1|] eqn:Hr.
    + apply (IH sub s1); [eapply Inv_resume; eauto|].
      pose proof (@pending_resume s s1 r Hr). lia.
    + exfalso. unfold resume in Hr. unfold pending in Hlen.
      destruct (awaiting s) eqn:Ha; [discriminate|].
      rewrite (inv_idle Hinv Ha) in Hlen. simpl in Hlen. lia.
Qed.

(** C1. For every interleaving of [enqueue] calls and print completions
    (no [clear]), the print function has been called on a prefix of the
    submitted payloads, in submission order, the remainder being the queue in
    order, and never while the previous call was still in flight; when the
    print in flight is rejected, the promise of its job is rejected and the
    print function is called for the next job in the same turn; once the
    prints in flight and pending have completed, with whatever outcomes
    (resolved or rejected), the print function has been called exactly once
    per [enqueue], N times in all, in submission order, still one at a time,
    and the queue is idle. *)
Theorem enqueue_dispatches_each_job_once_in_order :
  forall (evs : list Event) (s : State),
    no_clear evs = true ->
    run init evs = Some s ->
    calls (trace s) ++ map data (queue s) = submitted evs /\
    serial (trace s) = true /\
    (awaiting s = None -> queue s = []) /\
    (forall (j0 j : Job) (rest : list Job) (e : Error),
        awaiting s = Some j0 -> queue s = j :: rest ->
        exists s1,
          step s (Finish (Err e)) = Some s1 /\
          awaiting s1 = Some j /\ queue s1 = rest /\
          trace s1 = trace s ++ [Completed; Settle (handle j0) (Rejected e);
                                 Called (data j)]) /\
    forall outcomes : list (result unit),
      length outcomes = pending s ->
      exists s',
        run s (map Finish outcomes) = Some s' /\
        calls (trace s') = submitted evs /\
        length (calls (trace s')) = length (submitted evs) /\
        serial (trace s') = true /\
        queue s' = [] /\ awaiting s' = None /\ processing s' = false.
Proof.
  intros evs s Hnc Hrun.
  pose proof (Inv_run evs Hnc Inv_init Hrun) as Hinv. simpl in Hinv.
  split; [|split; [|split; [|split]]].
  - apply (inv_fifo Hinv).
  - unfold serial. rewrite (inv_serial Hinv). reflexivity.
  - apply (inv_idle Hinv).
  - intros j0 j rest e Ha Hq. unfold step, resume. rewrite Ha.
    eexists. split; [reflexivity|]. unfold dispatch. simpl. rewrite Hq.
    simpl. rewrite <- app_assoc. auto.
  - intros outcomes Hlen.
    destruct (drain outcomes Hinv Hlen) as (s' & Hrun' & Hinv' & Hq & Ha).
    exists s'. pose proof (inv_fifo Hinv') as Hf. rewrite Hq in Hf. simpl in Hf.
    rewrite app_nil_r in Hf.
    repeat split; auto.
    + rewrite Hf. reflexivity.
    + unfold serial. rewrite (inv_serial Hinv'). reflexivity.
    + rewrite (inv_flag Hinv'), Ha. reflexivity.
Qed.

Lemma Wf_init : Wf init.
Proof.
  split; simpl; auto.
  - constructor.
  - intros h [].
Qed.

Lemma Wf_enqueue (s : State) (d : payload) : Wf s -> Wf (enqueue d s).
Proof.
  intros [Hflag Hidle Hnd Hb Hf]. unfold enqueue, live in *. simpl.
  rewrite Hflag. destruct (awaiting s) as [j|] eqn:Ha; simpl in *.
  - split; unfold live; simpl; rewrite ?Ha; simpl; auto.
    + discriminate.
    + rewrite map_app. simpl. change (handle j :: map handle (queue s) ++ [promises s])
        with ((handle j :: map handle (queue s)) ++ [promises s]).
      apply NoDup_app; auto.
      * constructor; [intros []|constructor].
      * intros h Hin [<-|[]]. apply Hb in Hin. lia.
    + intros h [<-|Hin]; [specialize (Hb _ (or_introl eq_refl)); lia|].
      rewrite map_app in Hin. apply in_app_or in Hin as [Hin|[<-|[]]]; [|simpl; lia].
      specialize (Hb _ (or_intror Hin)). lia.
    + intros h [[<-|Hin]|Hge].
      * apply Hf. auto.
      * rewrite map_app in Hin. apply in_app_or in Hin as [Hin|[<-|[]]]; apply Hf; simpl; auto.
      * apply Hf. right. lia.
  - rewrite (Hidle eq_refl) in *. simpl in *.
    unfold processQueue, processQueue_body, dispatch. simpl.
    split; unfold live; simpl; auto.
    + constructor; [intros []|constructor].
    + intros h [<-|[]]. lia.
    + intros h Hh. rewrite settlements_app. simpl. rewrite app_nil_r.
      apply Hf. right. destruct Hh as [[<-|[]]|Hge]; lia.
Qed.

Lemma Wf_resume (s s' : State) (r : result unit) :
  Wf s -> resume r s = Some s' -> Wf s'.
Proof.
  intros [Hflag Hidle Hnd Hb Hf]. unfold resume, live in *.
  destruct (awaiting s) as [j|] eqn:Ha; [|discriminate].
  intros H. injection H as <-. unfold dispatch. simpl in *.
  inversion Hnd as [|h0 l0 Hnotin Hnd']; subst.
  assert (Hset : forall h, h <> handle j ->
            settlements h (trace s ++ [Completed; Settle (handle j) (settlement_of r)])
            = settlements h (trace s)).
  { intros h Hne. rewrite settlements_app. simpl.
    destruct (Nat.eqb_spec h (handle j)); [contradiction|]. apply app_nil_r. }
  destruct (queue s) as [|j' rest] eqn:Hq; simpl in *.
  - split; unfold live; simpl.
    + reflexivity.
    + reflexivity.
    + constructor.
    + intros h [].
    + intros h [[]|Hge]. rewrite Hset; [apply Hf; auto|].
      specialize (Hb _ (or_introl eq_refl)). lia.
  - split; unfold live; simpl.
    + exact Hflag.
    + discriminate.
    + exact Hnd'.
    + intros h Hin. apply Hb. right. exact Hin.
    + intros h Hh. rewrite settlements_app. simpl. rewrite app_nil_r.
      rewrite Hset.
      * apply Hf. destruct Hh as [Hin|Hge]; auto.
      * intros ->. destruct Hh as [Hin|Hge]; [contradiction|].
        specialize (Hb _ (or_introl eq_refl)). lia.
Qed.

Lemma settlements_cleared_other (h : nat) (q : list Job) :
  ~ In h (map handle q) ->
  settlements h (map (fun j => Settle (handle j) (Rejected queue_cleared)) q) = [].
Proof.
  induction q as [|j q IH]; simpl; intros Hnotin; [reflexivity|].
  destruct (Nat.eqb_spec h (handle j)) as [->|Hne].
  - exfalso. apply Hnotin. left. reflexivity.
  - apply IH. intros Hin. apply Hnotin. right. exact Hin.
Qed.

Lemma settlements_cleared_one (h : nat) (q : list Job) :
  NoDup (map handle q) -> In h (map handle q) ->
  settlements h (map (fun j => Settle (handle j) (Rejected queue_cleared)) q)
  = [Rejected queue_cleared].
Proof.
  induction q as [|j q IH]; simpl; intros Hnd Hin; [contradiction|].
  inversion Hnd as [|h0 l0 Hnotin Hnd']; subst.
  destruct (Nat.eqb_spec h (handle j)) as [->|Hne].
  - rewrite settlements_cleared_other by exact Hnotin. reflexivity.
  - destruct Hin as [Heq|Hin]; [congruence|]. apply IH; assumption.
Qed.

Lemma Wf_clear (s : State) : Wf s -> Wf (clear s).
Proof.
  intros [Hflag Hidle Hnd Hb Hf]. unfold live in *.
  assert (Hsub : forall h,
             In h (match awaiting s with Some j => [handle j] | None => [] end) ->
             In h (match awaiting s with Some j => [handle j] | None => [] end
                   ++ map handle (queue s)))
    by (intros h Hin; apply in_or_app; auto).
  split; unfold clear, live; simpl; rewrite ?app_nil_r.
  - exact Hflag.
  - reflexivity.
  - apply NoDup_app_remove_r in Hnd. exact Hnd.
  - intros h Hin. apply Hb, Hsub, Hin.
  - intros h Hh. rewrite settlements_app.
    rewrite settlements_cleared_other.
    + rewrite app_nil_r. apply Hf. destruct Hh as [Hin|Hge]; auto.
    + intros Hin. destruct Hh as [Hin'|Hge].
      * destruct (awaiting s) as [j|]; [|contradiction].
        destruct Hin' as [<-|[]]. simpl in Hnd.
        inversion Hnd; contradiction.
      * specialize (Hb h (in_or_app _ _ _ (or_intror Hin))). lia.
Qed.

Lemma Wf_run (evs : list Event) :
  forall s s' : State, Wf s -> run s evs = Some s' -> Wf s'.
Proof.
  induction evs as [|ev evs IH]; intros s s' Hwf Hrun; simpl in *.
  - injection Hrun as <-. exact Hwf.
  - destruct ev as [d|r|]; simpl in *.
    + apply (IH (enqueue d s)); auto using Wf_enqueue.
    + destruct (resume r s) as [s1|] eqn:Hr; [|discriminate].
      apply (IH s1); auto. apply (Wf_resume r Hwf Hr).
    + apply (IH (clear s)); auto using Wf_clear.
Qed.


(** ** The sequencer on three receipts *)

Lemma enqueue_dispatches_each_job_once_in_order_witness :
  let evs := Examples.three_submissions in
  let s := Examples.queue_after_three in
  no_clear evs = true /\
  run init evs = Some s /\
  calls (trace s) ++ map data (queue s) = submitted evs /\
  serial (trace s) = true /\
  (awaiting s = None -> queue s = []) /\
  (forall (j0 j : Job) (rest : list Job) (e : Error),
      awaiting s = Some j0 -> queue s = j :: rest ->
      exists s1,
        step s (Finish (Err e)) = Some s1 /\
        awaiting s1 = Some j /\ queue s1 = rest /\
        trace s1 = trace s ++ [Completed; Settle (handle j0) (Rejected e);
                               Called (data j)]) /\
  forall outcomes : list (result unit),
    length outcomes = pending s ->
    exists s',
      run s (map Finish outcomes) = Some s' /\
      calls (trace s') = submitted evs /\
      length (calls (trace s')) = length (submitted evs) /\
      serial (trace s') = true /\
      queue s' = [] /\ awaiting s' = None /\ processing s' = false.
Proof.
  split; [reflexivity|]. split; [reflexivity|].
  exact (enqueue_dispatches_each_job_once_in_order
           Examples.three_submissions eq_refl eq_refl).
Defined.

(** The first of the three prints fails, the other two succeed: the print
    function was called on A, B, C in that order, one call at a time, and each
    promise got the outcome of its own print. *)
Example three_receipts_first_rejected :
  let failure := mkError "Print failed after 3 attempts. Last error: offline" in
  exists s',
    run Examples.queue_after_three
        [Finish (Err failure); Finish (Ok tt); Finish (Ok tt)] = Some s' /\
    trace s'
    = [Called Examples.receipt_A; Completed; Settle 0 (Rejected failure);
       Called Examples.receipt_B; Completed; Settle 1 Resolved;
       Called Examples.receipt_C; Completed; Settle 2 Resolved] /\
    queue s' = [] /\ processing s' = false.
Proof. eexists. repeat split. Qed.


(** [clear()] while A is printing and B, C wait: B and C are rejected, A is
    resolved when its print ends, and neither B nor C is ever printed. *)
Example clear_while_printing :
  exists s',
    run Examples.queue_after_three [Clear; Finish (Ok tt)] = Some s' /\
    trace s'
    = [Called Examples.receipt_A;
       Settle 1 (Rejected queue_cleared); Settle 2 (Rejected queue_cleared);
       Completed; Settle 0 Resolved] /\
    queue s' = [] /\ processing s' = false.
Proof. eexists. repeat split. Qed.

End PrintQueueFacts.

(** ** The connection manager *)

Module PrinterManagerFacts.
Import Types PrinterManager.
Local Open Scope Z_scope.

Section Facts.
Context {S : Type} {ops : IPrinterAdapter S}.

Let Mgr := PrinterManager.t S.

Lemma after_failure_calls (attempt : Z) (m : Mgr) (a : S) :
  adapter m = Some a ->
  exists (m' : Mgr) (a' : S) (l : list Call),
    after_failure attempt m = (Ok tt, m') /\
    config m' = config m /\ adapter m' = Some a' /\ log m' = log m ++ l /\
    (attempt < maxRetries (config m) ->
     reconnect_calls (retryDelayMs (config m)) (attempt + 1) l) /\
    (maxRetries (config m) <= attempt -> l = []).
Proof.
  intros Ha. unfold after_failure.
  destruct (Z.ltb_spec attempt (maxRetries (config m))) as [Hlt|Hge].
  - unfold bind, delay, reconnect, try_catch, bind, disconnect, connect, warn, record.
    simpl. rewrite Ha.
    destruct (Types.disconnect a) as [[[]|e1] a1]; simpl.
    + destruct (Types.connect a1) as [[[]|e2] a2]; simpl.
      * eexists _, a2, [_; _; _].
        split; [reflexivity|]. split; [reflexivity|]. split; [reflexivity|].
        split; [simpl; rewrite <- !app_assoc; reflexivity|].
        split; [intros _; constructor|lia].
      * eexists _, a2, [_; _; _; _].
        split; [reflexivity|]. split; [reflexivity|]. split; [reflexivity|].
        split; [simpl; rewrite <- !app_assoc; reflexivity|].
        split; [intros _; constructor|lia].
    + eexists _, a1, [_; _; _].
      split; [reflexivity|]. split; [reflexivity|]. split; [reflexivity|].
      split; [simpl; rewrite <- !app_assoc; reflexivity|].
      split; [intros _; constructor|lia].
  - exists m, a, []. unfold ret. repeat split; auto.
    + rewrite app_nil_r. reflexivity.
    + lia.
Qed.

(** The retry loop ends within [maxRetries + 1 - attempt] iterations, and
    its calls and outcome are those of [loop_calls]. *)
Lemma retry_loop_calls (d : payload) (fuel : nat) :
  forall (attempt : Z) (lastError : option Error) (m : Mgr) (a : S),
    adapter m = Some a ->
    (Z.to_nat (maxRetries (config m) + 1 - attempt) <= fuel)%nat ->
    exists (r : result unit) (m' : Mgr) (a' : S) (l : list Call),
      retry_loop fuel d attempt lastError m = Some (r, m') /\
      config m' = config m /\ adapter m' = Some a' /\ log m' = log m ++ l /\
      loop_calls (maxRetries (config m)) (retryDelayMs (config m)) d
                 attempt lastError l r.
Proof.
  induction fuel as [|fuel IH]; intros attempt lastError m a Ha Hfuel.
  - simpl. destruct (Z.leb_spec attempt (maxRetries (config m))) as [Hle|Hgt]; [lia|].
    exists (Err (exhausted (maxRetries (config m)) lastError)), m, a, [].
    split; [reflexivity|]. split; [reflexivity|]. split; [exact Ha|].
    split; [rewrite app_nil_r; reflexivity|]. constructor. exact Hgt.
  - simpl. destruct (Z.leb_spec attempt (maxRetries (config m))) as [Hle|Hgt].
    + unfold adapter_print. rewrite Ha.
      destruct (Types.print d a) as [[[]|e] a1] eqn:Hp.
      * eexists (Ok tt), _, a1, [_].
        split; [reflexivity|]. split; [reflexivity|]. split; [reflexivity|].
        split; [reflexivity|]. constructor. exact Hle.
      * set (m1 := PrinterManager.mk (Some a1) (config m)
                                     (log m ++ [CallPrint d (Err e)])).
        destruct (@after_failure_calls attempt m1 a1 eq_refl)
          as (m2 & a2 & rc & Haf & Hc2 & Ha2 & Hl2 & Hrc & Hnil).
        rewrite Haf. simpl in Hc2, Hl2, Hrc, Hnil.
        destruct (IH (attempt + 1) (Some e) m2 a2 Ha2)
          as (r & m3 & a3 & l & Hr & Hc3 & Ha3 & Hl3 & Hlc).
        { rewrite Hc2. lia. }
        rewrite Hr, Hc2 in *. exists r, m3, a3, (CallPrint d (Err e) :: rc ++ l).
        split; [reflexivity|]. split; [exact Hc3|]. split; [exact Ha3|].
        split; [rewrite Hl3, Hl2, <- !app_assoc; reflexivity|].
        destruct (Z.eq_dec attempt (maxRetries (config m))) as [Heq|Hne].
        -- rewrite (Hnil ltac:(lia)). simpl.
           inversion Hlc; subst; try lia. apply lc_last_failed. reflexivity.
        -- apply lc_retry; auto; [lia|]. apply Hrc. lia.
    + exists (Err (exhausted (maxRetries (config m)) lastError)), m, a, [].
      split; [reflexivity|]. split; [reflexivity|]. split; [exact Ha|].
      split; [rewrite app_nil_r; reflexivity|]. constructor. exact Hgt.
Qed.

Lemma print_results_app (l1 l2 : list Call) :
  print_results (l1 ++ l2) = print_results l1 ++ print_results l2.
Proof.
  induction l1 as [|c l1 IH]; simpl; [reflexivity|].
  destruct c; simpl; rewrite ?IH; reflexivity.
Qed.

Lemma last_print_error_app (l1 l2 : list Call) (acc : option Error) :
  last_print_error (l1 ++ l2) acc = last_print_error l2 (last_print_error l1 acc).
Proof.
  revert acc. induction l1 as [|c l1 IH]; intros acc; simpl; [reflexivity|].
  destruct c as [| |d [u|e]| |]; simpl; apply IH.
Qed.

Lemma reconnect_calls_no_print (ms retry : Z) (rc : list Call) :
  reconnect_calls ms retry rc ->
  print_results rc = [] /\ forall acc, last_print_error rc acc = acc.
Proof. intros H. destruct H; simpl; auto. Qed.

(** Where the loop starts: with a call of the adapter's [print] when an
    attempt is left, with the final error otherwise. *)
Lemma loop_calls_head (k ms : Z) (d : payload) (attempt : Z)
      (lastError : option Error) (l : list Call) (r : result unit) :
  loop_calls k ms d attempt lastError l r ->
  (attempt <= k -> exists r1 l', l = CallPrint d r1 :: l') /\
  (k < attempt -> l = [] /\ r = Err (exhausted k lastError)).
Proof.
  intros H. destruct H; split; intros; try lia; eauto.
Qed.

(** Every attempt fails: the loop makes all the attempts that are left and
    throws the error of lines 101-103 with the last error caught. *)
Lemma loop_calls_all_failed (k ms : Z) (d : payload) (attempt : Z)
      (lastError : option Error) (l : list Call) (r : result unit) :
  loop_calls k ms d attempt lastError l r ->
  forallb failed (print_results l) = true ->
  r = Err (exhausted k (last_print_error l lastError)) /\
  length (print_results l) = Z.to_nat (k + 1 - attempt).
Proof.
  induction 1 as [attempt lastError Hgt|attempt lastError Hle
                  |attempt lastError e Heq|attempt lastError e rc l r Hlt Hrc Hl IH];
    simpl; intros Hall.
  - split; [reflexivity|]. lia.
  - discriminate.
  - split; [reflexivity|]. subst. replace (k + 1 - k) with 1 by lia. reflexivity.
  - destruct (reconnect_calls_no_print Hrc) as [Hnone Hacc].
    rewrite print_results_app, Hnone in *. simpl in *.
    destruct (IH Hall) as [-> Hlen].
    rewrite last_print_error_app, Hacc. split; [reflexivity|].
    rewrite Hlen. lia.
Qed.

(** Some attempt succeeds: it is the last call the loop makes, every
    attempt before it failed, and [print] returns. *)
Lemma loop_calls_succeeded (k ms : Z) (d : payload) (attempt : Z)
      (lastError : option Error) (l : list Call) (r : result unit) :
  loop_calls k ms d attempt lastError l r ->
  forallb failed (print_results l) = false ->
  r = Ok tt /\
  (length (print_results l) <= Z.to_nat (k + 1 - attempt))%nat /\
  exists l0, l = l0 ++ [CallPrint d (Ok tt)] /\
             forallb failed (print_results l0) = true.
Proof.
  induction 1 as [attempt lastError Hgt|attempt lastError Hle
                  |attempt lastError e Heq|attempt lastError e rc l r Hlt Hrc Hl IH];
    simpl; intros Hsome; try discriminate.
  - split; [reflexivity|]. split; [lia|]. exists []. auto.
  - destruct (reconnect_calls_no_print Hrc) as [Hnone Hacc].
    rewrite print_results_app, Hnone in *. simpl in *.
    destruct (IH Hsome) as (-> & Hlen & l0 & -> & Hl0).
    split; [reflexivity|]. split; [lia|].
    exists (CallPrint d (Err e) :: rc ++ l0). split.
    + simpl. rewrite <- app_assoc. reflexivity.
    + simpl. rewrite print_results_app, Hnone. exact Hl0.
Qed.

(** A list of calls without a [print] in front of a list that has one. *)
Lemma split_after_reconnect (rc l l1 l2 : list Call) (d : payload) (r : result unit) :
  print_results rc = [] ->
  rc ++ l = l1 ++ CallPrint d r :: l2 ->
  exists l1', l1 = rc ++ l1' /\ l = l1' ++ CallPrint d r :: l2.
Proof.
  revert l1. induction rc as [|c rc IH]; intros l1 Hnone Heq; simpl in *.
  - exists l1. auto.
  - destruct l1 as [|c1 l1]; simpl in Heq.
    + injection Heq as -> _. discriminate.
    + injection Heq as <- Heq.
      assert (Hnone' : print_results rc = []) by (destruct c; simpl in *; congruence).
      destruct (IH l1 Hnone' Heq) as (l1' & -> & ->). exists l1'. auto.
Qed.

(** After every failed attempt that is not the last one allowed comes the
    reconnect step, then the next attempt. *)
Lemma loop_calls_reconnects (k ms : Z) (d : payload) (attempt : Z)
      (lastError : option Error) (l : list Call) (r : result unit) :
  loop_calls k ms d attempt lastError l r ->
  forall (l1 l2 : list Call) (e : Error),
    l = l1 ++ CallPrint d (Err e) :: l2 ->
    attempt + Z.of_nat (length (print_results l1)) < k ->
    exists rc r' rest,
      reconnect_calls ms (attempt + Z.of_nat (length (print_results l1)) + 1) rc /\
      l2 = rc ++ CallPrint d r' :: rest.
Proof.
  induction 1 as [attempt lastError Hgt|attempt lastError Hle
                  |attempt lastError e0 Heq|attempt lastError e0 rc l r Hlt Hrc Hl IH];
    intros l1 l2 e Hsplit Hnum.
  - destruct l1; discriminate.
  - destruct l1 as [|c l1]; [discriminate|].
    destruct l1; discriminate.
  - destruct l1 as [|c l1]; simpl in *; [lia|].
    destruct l1; discriminate.
  - destruct l1 as [|c l1]; simpl in Hsplit.
    + injection Hsplit as <- <-. simpl. rewrite Z.add_0_r.
      destruct (loop_calls_head Hl) as [Hhead _].
      destruct (Hhead ltac:(lia)) as (r1 & l' & ->).
      exists rc, r1, l'. auto.
    + injection Hsplit as <- Hsplit.
      destruct (reconnect_calls_no_print Hrc) as [Hnone _].
      destruct (@split_after_reconnect rc l l1 l2 d (Err e) Hnone Hsplit) as (l1' & -> & ->).
      assert (Hcount : Z.of_nat (length (print_results
                                 (CallPrint d (Err e0) :: rc ++ l1')))
                       = 1 + Z.of_nat (length (print_results l1'))).
      { cbn [print_results]. rewrite print_results_app, Hnone.
        cbn [app length]. lia. }
      rewrite Hcount in *.
      destruct (IH l1' l2 e eq_refl ltac:(lia)) as (rc' & r' & rest & Hrc' & ->).
      exists rc', r', rest. split; [|reflexivity].
      replace (attempt + (1 + Z.of_nat (length (print_results l1'))) + 1)
        with (attempt + 1 + Z.of_nat (length (print_results l1')) + 1) by lia.
      exact Hrc'.
Qed.

(** The loop ends with its last attempt or the error of lines 101-103;
    never with an error of a reconnect step. *)
Lemma loop_calls_outcome (k ms : Z) (d : payload) (attempt : Z)
      (lastError : option Error) (l : list Call) (r : result unit) :
  loop_calls k ms d attempt lastError l r ->
  r = Ok tt \/ r = Err (exhausted k (last_print_error l lastError)).
Proof.
  induction 1 as [attempt lastError Hgt|attempt lastError Hle
                  |attempt lastError e0 Heq|attempt lastError e0 rc l r Hlt Hrc Hl IH];
    simpl; auto.
  destruct (reconnect_calls_no_print Hrc) as [_ Hacc].
  rewrite last_print_error_app, Hacc. exact IH.
Qed.

(** Every call of the adapter's [print] the loop makes is on the payload
    [print] was given. *)
Lemma loop_calls_payload (k ms : Z) (d : payload) (attempt : Z)
      (lastError : option Error) (l : list Call) (r : result unit) :
  loop_calls k ms d attempt lastError l r ->
  forall c, In c l -> match c with CallPrint d' _ => d' = d | _ => True end.
Proof.
  induction 1 as [attempt lastError Hgt|attempt lastError Hle
                  |attempt lastError e Heq|attempt lastError e rc l r Hlt Hrc Hl IH];
    intros c Hin; simpl in Hin.
  - contradiction.
  - destruct Hin as [<-|[]]. reflexivity.
  - destruct Hin as [<-|[]]. reflexivity.
  - destruct Hin as [<-|Hin]; [reflexivity|].
    apply in_app_or in Hin as [Hin|Hin]; [|apply IH; exact Hin].
    destruct Hrc; simpl in Hin;
      repeat (destruct Hin as [<-|Hin]; [exact I|]); contradiction.
Qed.

(** [print] ends, and its calls are an optional [connect()] followed by
    those of the retry loop. *)
Lemma print_calls (d : payload) (m : Mgr) (a : S) :
  adapter m = Some a ->
  exists (r : result unit) (m' : Mgr) (l : list Call),
    print d m = Some (r, m') /\ config m' = config m /\ log m' = log m ++ l /\
    (Types.isConnected a = true ->
     loop_calls (maxRetries (config m)) (retryDelayMs (config m)) d 1 None l r) /\
    (Types.isConnected a = false ->
     exists rc l', l = CallConnect rc :: l' /\ rc = fst (Types.connect a) /\
       match rc with
       | Err e => r = Err e /\ l' = []
       | Ok _ => loop_calls (maxRetries (config m)) (retryDelayMs (config m))
                            d 1 None l' r
       end).
Proof.
  intros Ha. unfold print. rewrite Ha.
  destruct (Types.isConnected a) eqn:Hc; simpl.
  - destruct (@retry_loop_calls d (Z.to_nat (maxRetries (config m))) 1 None m a Ha)
      as (r & m' & a' & l & Hr & Hc' & Ha' & Hl & Hlc).
    { apply Nat.eq_le_incl. f_equal. lia. }
    exists r, m', l. rewrite Hr. repeat split; auto. discriminate.
  - unfold connect. rewrite Ha.
    destruct (Types.connect a) as [[[]|e] a1] eqn:Hconn; simpl.
    + set (m1 := PrinterManager.mk (Some a1) (config m) (log m ++ [CallConnect (Ok tt)])).
      destruct (@retry_loop_calls d (Z.to_nat (maxRetries (config m1))) 1 None m1 a1 eq_refl)
        as (r & m' & a' & l & Hr & Hc' & Ha' & Hl & Hlc).
      { apply Nat.eq_le_incl. f_equal. lia. }
      change (config m1) with (config m) in Hr, Hc', Hlc.
      exists r, m', (CallConnect (Ok tt) :: l). rewrite Hr.
      split; [reflexivity|]. split; [exact Hc'|].
      split; [rewrite Hl; simpl; rewrite <- app_assoc; reflexivity|].
      split; [discriminate|]. intros _.
      exists (Ok tt), l. auto.
    + eexists (Err e), _, [CallConnect (Err e)].
      split; [reflexivity|]. split; [reflexivity|]. split; [reflexivity|].
      split; [discriminate|]. intros _.
      exists (Err e), []. auto.
Qed.

Lemma last_print_error_some (l : list Call) (acc : option Error) :
  forallb failed (print_results l) = true ->
  print_results l <> [] ->
  exists e, last_print_error l acc = Some e.
Proof.
  revert acc. induction l as [|c l IH]; intros acc Hall Hne; simpl in *.
  - contradiction.
  - destruct c as [| |d [u|e]| |]; simpl in *; try (apply IH; assumption).
    + discriminate.
    + destruct (print_results l) eqn:Hl.
      * destruct l as [|c' l']; [exists e; reflexivity|].
        clear IH. revert Hl. generalize (c' :: l'). intros l0 Hl0.
        assert (Hkeep : forall l1 acc1, print_results l1 = [] ->
                                        last_print_error l1 acc1 = acc1).
        { induction l1 as [|c1 l1 IH1]; intros acc1 H1; simpl in *; [reflexivity|].
          destruct c1; simpl in *; try discriminate; auto. }
        exists e. apply Hkeep. exact Hl0.
      * apply IH; [exact Hall|discriminate].
Qed.

Lemma embeds_attempts (k : Z) (lastError : option Error) :
  embeds (string_of_Z k) (message (exhausted k lastError)).
Proof.
  exists "Print failed after "%string. eexists. unfold exhausted. simpl. reflexivity.
Qed.

Lemma embeds_last_error (k : Z) (e : Error) :
  embeds (message e) (message (exhausted k (Some e))).
Proof.
  unfold exhausted, embeds. simpl. destruct (message e) as [|c s] eqn:He; simpl.
  - eexists. exists ""%string. simpl. rewrite string_app_nil_r. reflexivity.
  - exists ("Print failed after " ++ string_of_Z k ++ " attempts. Last error: ")%string.
    exists ""%string. rewrite string_app_nil_r.
    change (String "P" ("rint failed after " ++ string_of_Z k
                        ++ " attempts. Last error: " ++ String c s))%string
      with ("Print failed after " ++ string_of_Z k
            ++ " attempts. Last error: " ++ String c s)%string.
    rewrite (string_app_assoc "Print failed after "
               (string_of_Z k ++ " attempts. Last error: ") (String c s)).
    rewrite (string_app_assoc (string_of_Z k) " attempts. Last error: " (String c s)).
    reflexivity.
Qed.

(** [print] always ends: the fuel it gives the loop is never used up. *)
Lemma print_total (d : payload) (m : Mgr) :
  exists (r : result unit) (m' : Mgr), print d m = Some (r, m').
Proof.
  destruct (adapter m) as [a|] eqn:Ha.
  - destruct (print_calls d m Ha) as (r & m' & l & Hp & _). eauto.
  - unfold print. rewrite Ha. eauto.
Qed.

(** A list of calls that was made on the adapter, followed by one that was
    made on the adapter as the first left it. *)
Lemma replay_app (l1 l2 : list Call) (a a1 a2 : S) :
  replay l1 a = (l1, a1) -> replay l2 a1 = (l2, a2) ->
  replay (l1 ++ l2) a = (l1 ++ l2, a2).
Proof.
  revert a. induction l1 as [|c l1 IH]; intros a H1 H2; simpl in *.
  - injection H1 as <-. exact H2.
  - destruct (match c with
              | CallConnect _ => let (r, a0) := Types.connect a in (CallConnect r, a0)
              | CallDisconnect _ =>
                  let (r, a0) := Types.disconnect a in (CallDisconnect r, a0)
              | CallPrint d _ => let (r, a0) := Types.print d a in (CallPrint d r, a0)
              | Delay ms => (Delay ms, a)
              | Warn retry e => (Warn retry e, a)
              end) as [c' a0].
    destruct (replay l1 a0) as [l1' a1'] eqn:Hr.
    injection H1 as -> -> ->.
    rewrite (IH a0 Hr H2). reflexivity.
Qed.

(** The reconnect step calls the adapter the manager holds, and keeps the
    adapter as those calls left it. *)
Lemma after_failure_replay (attempt : Z) (m m' : Mgr) (a : S) (r : result unit) :
  adapter m = Some a ->
  after_failure attempt m = (r, m') ->
  exists (a' : S) (l : list Call),
    adapter m' = Some a' /\ log m' = log m ++ l /\ replay l a = (l, a').
Proof.
  intros Ha. unfold after_failure.
  destruct (attempt <? maxRetries (config m)).
  - unfold bind, delay, reconnect, try_catch, bind, disconnect, connect, warn, record.
    simpl. rewrite Ha.
    destruct (Types.disconnect a) as [[[]|e1] a1] eqn:Hd; simpl.
    + destruct (Types.connect a1) as [[[]|e2] a2] eqn:Hc; simpl;
        intros H; injection H as <- <-; simpl.
      * exists a2, [Delay (retryDelayMs (config m)); CallDisconnect (Ok tt);
                    CallConnect (Ok tt)].
        split; [reflexivity|]. split; [rewrite <- !app_assoc; reflexivity|].
        simpl. rewrite Hd, Hc. reflexivity.
      * exists a2, [Delay (retryDelayMs (config m)); CallDisconnect (Ok tt);
                    CallConnect (Err e2); Warn (attempt + 1) e2].
        split; [reflexivity|]. split; [rewrite <- !app_assoc; reflexivity|].
        simpl. rewrite Hd, Hc. reflexivity.
    + intros H; injection H as <- <-; simpl.
      exists a1, [Delay (retryDelayMs (config m)); CallDisconnect (Err e1);
                  Warn (attempt + 1) e1].
      split; [reflexivity|]. split; [rewrite <- !app_assoc; reflexivity|].
      simpl. rewrite Hd. reflexivity.
  - unfold ret. intros H; injection H as <- <-.
    exists a, []. split; [exact Ha|]. split; [rewrite app_nil_r; reflexivity|reflexivity].
Qed.

(** The same for the retry loop: every call it logs was made on the adapter,
    with the outcome logged. *)
Lemma retry_loop_replay (d : payload) (fuel : nat) :
  forall (attempt : Z) (lastError : option Error) (m m' : Mgr) (a : S)
         (r : result unit),
    adapter m = Some a ->
    retry_loop fuel d attempt lastError m = Some (r, m') ->
    exists (a' : S) (l : list Call),
      adapter m' = Some a' /\ log m' = log m ++ l /\ replay l a = (l, a').
Proof.
  assert (Hstop : forall (m m' : Mgr) (a : S) (r r0 : result unit),
             adapter m = Some a -> Some (r0, m) = Some (r, m') ->
             exists (a' : S) (l : list Call),
               adapter m' = Some a' /\ log m' = log m ++ l /\ replay l a = (l, a')).
  { intros m m' a r r0 Ha H. injection H as _ <-. exists a, [].
    split; [exact Ha|]. split; [rewrite app_nil_r; reflexivity|reflexivity]. }
  induction fuel as [|fuel IH]; intros attempt lastError m m' a r Ha; simpl.
  - destruct (attempt <=? maxRetries (config m)); [discriminate|].
    apply Hstop. exact Ha.
  - destruct (attempt <=? maxRetries (config m)); [|apply Hstop; exact Ha].
    unfold adapter_print. rewrite Ha.
    destruct (Types.print d a) as [[[]|e] a1] eqn:Hp.
    + intros H. injection H as <- <-. exists a1, [CallPrint d (Ok tt)].
      split; [reflexivity|]. split; [reflexivity|]. simpl. rewrite Hp. reflexivity.
    + set (m1 := PrinterManager.mk (Some a1) (config m)
                                   (log m ++ [CallPrint d (Err e)])).
      destruct (after_failure attempt m1) as [[[]|e'] m2] eqn:Haf.
      * destruct (@after_failure_replay attempt m1 m2 a1 (Ok tt) eq_refl Haf)
          as (a2 & l2 & Ha2 & Hl2 & Hr2).
        intros Hloop.
        destruct (IH (attempt + 1) (Some e) m2 m' a2 r Ha2 Hloop)
          as (a3 & l3 & Ha3 & Hl3 & Hr3).
        exists a3, ([CallPrint d (Err e)] ++ l2 ++ l3).
        split; [exact Ha3|]. split.
        -- rewrite Hl3, Hl2. simpl. rewrite <- !app_assoc. reflexivity.
        -- apply replay_app with (a1 := a1).
           ++ simpl. rewrite Hp. reflexivity.
           ++ apply replay_app with (a1 := a2); assumption.
      * destruct (@after_failure_replay attempt m1 m2 a1 (Err e') eq_refl Haf)
          as (a2 & l2 & Ha2 & Hl2 & Hr2).
        intros H. injection H as <- <-.
        exists a2, ([CallPrint d (Err e)] ++ l2).
        split; [exact Ha2|]. split.
        -- rewrite Hl2. simpl. rewrite <- !app_assoc. reflexivity.
        -- apply replay_app with (a1 := a1); [|exact Hr2].
           simpl. rewrite Hp. reflexivity.
Qed.

(** Every call [print] logs was made on the adapter the manager holds, with
    the outcome logged, and the manager keeps the adapter as the calls left
    it. *)
Lemma print_replay (d : payload) (m m' : Mgr) (a : S) (r : result unit) :
  adapter m = Some a ->
  print d m = Some (r, m') ->
  exists (a' : S) (l : list Call),
    adapter m' = Some a' /\ log m' = log m ++ l /\ replay l a = (l, a').
Proof.
  intros Ha. unfold print. rewrite Ha.
  destruct (Types.isConnected a); simpl.
  - apply retry_loop_replay. exact Ha.
  - unfold connect. rewrite Ha.
    destruct (Types.connect a) as [[[]|e] a1] eqn:Hc; simpl.
    + set (m1 := PrinterManager.mk (Some a1) (config m)
                                   (log m ++ [CallConnect (Ok tt)])).
      intros Hloop.
      destruct (@retry_loop_replay d _ 1 None m1 m' a1 r eq_refl Hloop)
        as (a2 & l2 & Ha2 & Hl2 & Hr2).
      exists a2, ([CallConnect (Ok tt)] ++ l2).
      split; [exact Ha2|]. split.
      * rewrite Hl2. simpl. rewrite <- !app_assoc. reflexivity.
      * apply replay_app with (a1 := a1); [|exact Hr2].
        simpl. rewrite Hc. reflexivity.
    + intros H. injection H as <- <-. exists a1, [CallConnect (Err e)].
      split; [reflexivity|]. split; [reflexivity|]. simpl. rewrite Hc. reflexivity.
Qed.

(** C2. With [maxRetries = k] and an adapter [a] that is connected, [print]
    ends, and the calls [l] it logs are the calls it made on [a]: each
    [CallPrint d r] in [l] is a call of the adapter's [print] on the payload,
    [r] is what that call returned in the state the earlier calls left the
    adapter in, and the manager keeps the adapter as the calls left it
    ([replay]).  If every one of these calls of the adapter's [print] fails,
    there are exactly [k] of them ([Z.to_nat k]: the count is [k] itself as
    soon as [0 <= k]) and [print] throws the error of lines 101-103, whose
    message contains [k] and the message of the last error the adapter threw
    (for [1 <= k] there is one); if a call succeeds, [print] returns, that
    call is the last thing it did, every call before it had failed and no
    more than [k] calls were made. *)
Theorem print_attempts_exactly_maxRetries :
  forall (d : payload) (m : Mgr) (a : S) (k : Z),
    adapter m = Some a ->
    Types.isConnected a = true ->
    maxRetries (config m) = k ->
    exists (r : result unit) (m' : Mgr) (a' : S) (l : list Call),
      print d m = Some (r, m') /\ log m' = log m ++ l /\
      adapter m' = Some a' /\ replay l a = (l, a') /\
      (forall c, In c l -> match c with CallPrint d' _ => d' = d | _ => True end) /\
      (forallb failed (print_results l) = true ->
       length (print_results l) = Z.to_nat k /\
       r = Err (exhausted k (last_print_error l None)) /\
       embeds (string_of_Z k) (message (exhausted k (last_print_error l None))) /\
       (forall e, last_print_error l None = Some e ->
                  embeds (message e) (message (exhausted k (last_print_error l None)))) /\
       (1 <= k -> exists e, last_print_error l None = Some e)) /\
      (forallb failed (print_results l) = false ->
       r = Ok tt /\
       (length (print_results l) <= Z.to_nat k)%nat /\
       exists l0, l = l0 ++ [CallPrint d (Ok tt)] /\
                  forallb failed (print_results l0) = true).
Proof.
  intros d m a k Ha Hconn Hk.
  destruct (print_calls d m Ha) as (r & m' & l & Hp & _ & Hl & Hloop & _).
  specialize (Hloop Hconn). rewrite Hk in Hloop.
  destruct (@print_replay d m m' a r Ha Hp) as (a' & l' & Ha' & Hl' & Hrep).
  assert (l' = l) as -> by (rewrite Hl in Hl'; apply app_inv_head in Hl'; congruence).
  exists r, m', a', l. split; [exact Hp|]. split; [exact Hl|].
  split; [exact Ha'|]. split; [exact Hrep|]. split; [|split].
  - apply (loop_calls_payload Hloop).
  - intros Hall. destruct (loop_calls_all_failed Hloop Hall) as [Hr Hlen].
    replace (k + 1 - 1) with k in Hlen by lia.
    split; [exact Hlen|]. split; [exact Hr|]. split; [apply embeds_attempts|]. split.
    + intros e ->. apply embeds_last_error.
    + intros Hpos. apply last_print_error_some; [exact Hall|].
      intros Hnil. rewrite Hnil in Hlen. simpl in Hlen. lia.
  - intros Hsome. destruct (loop_calls_succeeded Hloop Hsome) as (Hr & Hlen & Hlast).
    replace (k + 1 - 1) with k in Hlen by lia. auto.
Qed.


(** C6, as the code has it.  After every failed attempt that is not the last
    one allowed, [print] waits [retryDelayMs], calls [disconnect()] and, when
    that returned, [connect()]; an error of either is caught and only logged
    ([reconnect_calls]), and the next call of the adapter's [print] follows.
    The calls logged are the calls made on the adapter the manager holds,
    with the outcomes the adapter gave ([replay]).  [print] itself ends with
    a successful attempt, with the error of lines 101-103 about the last
    failed attempt, or with the error of the [connect()] made before the
    loop: never with an error of a reconnect step. *)
Theorem failed_attempt_then_reconnect_then_next_attempt :
  forall (d : payload) (m : Mgr) (a : S),
    adapter m = Some a ->
    exists (r : result unit) (m' : Mgr) (a' : S) (l : list Call),
      print d m = Some (r, m') /\ log m' = log m ++ l /\
      adapter m' = Some a' /\ replay l a = (l, a') /\
      (forall (l1 l2 : list Call) (e : Error),
          l = l1 ++ CallPrint d (Err e) :: l2 ->
          Z.of_nat (length (print_results l1)) + 1 < maxRetries (config m) ->
          exists (rc : list Call) (r' : result unit) (rest : list Call),
            reconnect_calls (retryDelayMs (config m))
                            (Z.of_nat (length (print_results l1)) + 2) rc /\
            l2 = rc ++ CallPrint d r' :: rest) /\
      (r = Ok tt \/
       r = Err (exhausted (maxRetries (config m)) (last_print_error l None)) \/
       exists e, l = [CallConnect (Err e)] /\ r = Err e).
Proof.
  intros d m a Ha.
  destruct (print_calls d m Ha) as (r & m' & l & Hp & _ & Hl & Hyes & Hno).
  destruct (@print_replay d m m' a r Ha Hp) as (a' & l' & Ha' & Hl' & Hrep).
  assert (l' = l) as -> by (rewrite Hl in Hl'; apply app_inv_head in Hl'; congruence).
  exists r, m', a', l. split; [exact Hp|]. split; [exact Hl|].
  split; [exact Ha'|]. split; [exact Hrep|].
  assert (Hshift : forall n : nat, 1 + Z.of_nat n + 1 = Z.of_nat n + 2) by (intros; lia).
  destruct (Types.isConnected a) eqn:Hconn.
  - specialize (Hyes eq_refl). split.
    + intros l1 l2 e Hsplit Hnum.
      pose proof (loop_calls_reconnects Hyes) as Hrec.
      destruct (Hrec l1 l2 e Hsplit ltac:(lia)) as (rc & r' & rest & Hrc & ->).
      rewrite Hshift in Hrc. eauto.
    + destruct (loop_calls_outcome Hyes) as [->| ->]; auto.
  - destruct (Hno eq_refl) as (rc & l' & -> & _ & Hcase).
    destruct rc as [u|e0].
    + split.
      * intros l1 l2 e Hsplit Hnum.
        destruct l1 as [|c l1]; [discriminate|]. injection Hsplit as <- Hsplit.
        cbn [print_results] in *.
        pose proof (loop_calls_reconnects Hcase) as Hrec.
        destruct (Hrec l1 l2 e Hsplit ltac:(lia)) as (rc & r' & rest & Hrc & ->).
        rewrite Hshift in Hrc. eauto.
      * destruct (loop_calls_outcome Hcase) as [->| ->]; auto.
    + destruct Hcase as [-> ->]. split.
      * intros l1 l2 e Hsplit _. destruct l1 as [|c l1]; [discriminate|].
        destruct l1; discriminate.
      * right. right. exists e0. auto.
Qed.

(** Without an attempt to make, the loop is left at once. *)
Lemma print_without_attempt (d : payload) (m : Mgr) (a : S) (k : Z) :
  adapter m = Some a ->
  Types.isConnected a = true ->
  maxRetries (config m) = k ->
  k <= 0 ->
  print d m = Some (Err (exhausted k None), m) /\
  message (exhausted k None)
  = ("Print failed after " ++ string_of_Z k
     ++ " attempts. Last error: Unknown error")%string.
Proof.
  intros Ha Hconn Hk Hle. unfold print. rewrite Ha, Hconn. simpl.
  replace (Z.to_nat (maxRetries (config m))) with 0%nat by lia.
  simpl. destruct (Z.leb_spec 1 (maxRetries (config m))) as [H1|H1]; [lia|].
  rewrite Hk. split; reflexivity.
Qed.

End Facts.

(** C10. The constructor makes the adapter without looking at [maxRetries]
    (the same adapter, or the same error, as for [maxRetries = 1]); and with
    [maxRetries = k <= 0] and an adapter that is connected, [print] calls
    nothing, leaves the manager as it was and throws the error whose message
    gives [k] as the number of attempts and "Unknown error" as the last
    error. *)
Theorem maxRetries_not_positive_no_attempt_unknown_error :
  forall (S : Type) (ops : IPrinterAdapter S) (d : payload)
         (m : PrinterManager.t S) (a : S) (k : Z),
    adapter m = Some a ->
    Types.isConnected a = true ->
    maxRetries (config m) = k ->
    k <= 0 ->
    initializeAdapter (config m)
    = initializeAdapter (mkConfig (interface (config m)) (usbName (config m))
                                  (serialPort (config m)) 1 (retryDelayMs (config m))) /\
    print d m = Some (Err (exhausted k None), m) /\
    message (exhausted k None)
    = ("Print failed after " ++ string_of_Z k
       ++ " attempts. Last error: Unknown error")%string.
Proof.
  intros S ops d m a k Ha Hconn Hk Hle. split; [reflexivity|].
  apply (print_without_attempt d m Ha Hconn Hk Hle).
Qed.

(** ** The manager on concrete devices *)

(** The constructor takes a configuration whose [maxRetries] is 0. *)
Example constructor_accepts_zero_retries :
  PrinterManager.new (Examples.serial_config 0) (Examples.world_idle [])
  = Ok (Examples.manager_fresh 0 []).
Proof. reflexivity. Qed.

Lemma print_attempts_exactly_maxRetries_witness :
  let m := Examples.manager_connected 2 Examples.script_two_failures in
  let a := Examples.device_connected Examples.script_two_failures in
  let d := Examples.receipt in
  adapter m = Some a /\
  Types.isConnected a = true /\
  exists (r : result unit) (m' : PrinterManager.t Device) (a' : Device)
         (l : list Call),
    print d m = Some (r, m') /\ log m' = log m ++ l /\
    adapter m' = Some a' /\ replay l a = (l, a') /\
    (forall c, In c l -> match c with CallPrint d' _ => d' = d | _ => True end) /\
    (forallb failed (print_results l) = true ->
     length (print_results l) = Z.to_nat 2 /\
     r = Err (exhausted 2 (last_print_error l None)) /\
     embeds (string_of_Z 2) (message (exhausted 2 (last_print_error l None))) /\
     (forall e, last_print_error l None = Some e ->
                embeds (message e) (message (exhausted 2 (last_print_error l None)))) /\
     (1 <= 2 -> exists e, last_print_error l None = Some e)) /\
    (forallb failed (print_results l) = false ->
     r = Ok tt /\
     (length (print_results l) <= Z.to_nat 2)%nat /\
     exists l0, l = l0 ++ [CallPrint d (Ok tt)] /\
                forallb failed (print_results l0) = true).
Proof.
  split; [reflexivity|]. split; [reflexivity|].
  exact (print_attempts_exactly_maxRetries Examples.receipt
           (Examples.manager_connected 2 Examples.script_two_failures)
           (a := Examples.device_connected Examples.script_two_failures)
           eq_refl eq_refl eq_refl).
Defined.

(** What that run is: two attempts, one reconnect step between them, and the
    error about two attempts. *)
Example two_failures_run :
  exists m',
    print Examples.receipt (Examples.manager_connected 2 Examples.script_two_failures)
    = Some (Err (mkError "Print failed after 2 attempts. Last error: Failed to drain serial port: EIO"), m') /\
    log m'
    = [CallPrint Examples.receipt (Err (mkError "Failed to drain serial port: EIO"));
       Delay 1000; CallDisconnect (Ok tt); CallConnect (Ok tt);
       CallPrint Examples.receipt (Err (mkError "Failed to drain serial port: EIO"))].
Proof. eexists. split; vm_compute; reflexivity. Qed.

(** The scenario of the specification: [maxRetries = 3], [retryDelayMs = 10],
    the first two attempts fail and the third succeeds.  [print] resolves
    after three calls of the adapter's [print] and two reconnect steps. *)
Example two_failures_then_success :
  let script :=
    [None; Some "EIO"%string; None; None; None;
     None; Some "EIO"%string; None; None; None;
     None; None] in
  let m :=
    PrinterManager.mk (Some (Examples.device_connected script))
                      (mkConfig "serial" None (Some "COM3"%string) 3 10) [] in
  let drain_failed := mkError "Failed to drain serial port: EIO" in
  exists m',
    print Examples.receipt m = Some (Ok tt, m') /\
    log m'
    = [CallPrint Examples.receipt (Err drain_failed);
       Delay 10; CallDisconnect (Ok tt); CallConnect (Ok tt);
       CallPrint Examples.receipt (Err drain_failed);
       Delay 10; CallDisconnect (Ok tt); CallConnect (Ok tt);
       CallPrint Examples.receipt (Ok tt)] /\
    option_map open_transports (adapter m') = Some [2%nat].
Proof. eexists. split; [vm_compute; reflexivity|]. split; vm_compute; reflexivity. Qed.


Lemma failed_attempt_then_reconnect_then_next_attempt_witness :
  let m := Examples.manager_connected 2 Examples.script_close_fails in
  let a := Examples.device_connected Examples.script_close_fails in
  let d := Examples.receipt in
  adapter m = Some a /\
  exists (r : result unit) (m' : PrinterManager.t Device) (a' : Device)
         (l : list Call),
    print d m = Some (r, m') /\ log m' = log m ++ l /\
    adapter m' = Some a' /\ replay l a = (l, a') /\
    (forall (l1 l2 : list Call) (e : Error),
        l = l1 ++ CallPrint d (Err e) :: l2 ->
        Z.of_nat (length (print_results l1)) + 1 < maxRetries (config m) ->
        exists (rc : list Call) (r' : result unit) (rest : list Call),
          reconnect_calls (retryDelayMs (config m))
                          (Z.of_nat (length (print_results l1)) + 2) rc /\
          l2 = rc ++ CallPrint d r' :: rest) /\
    (r = Ok tt \/
     r = Err (exhausted (maxRetries (config m)) (last_print_error l None)) \/
     exists e, l = [CallConnect (Err e)] /\ r = Err e).
Proof.
  split; [reflexivity|].
  exact (failed_attempt_then_reconnect_then_next_attempt Examples.receipt
           (Examples.manager_connected 2 Examples.script_close_fails)
           (a := Examples.device_connected Examples.script_close_fails)
           eq_refl).
Defined.

(** C6 as the specification words it fails: here the first attempt is not the
    last one allowed ([maxRetries = 2]) and fails, the write being accepted
    but not drained, which leaves the port open; the manager waits and calls
    [disconnect()], which throws because the port cannot be closed; the error
    is logged and [connect()] is not called: the second attempt follows at
    once, on an adapter that is left disconnected. *)
Lemma reconnect_step_skips_connect_when_disconnect_throws :
  let m := Examples.manager_connected 2 Examples.script_close_fails in
  let d := Examples.receipt in
  let drain_failed := mkError "Failed to drain serial port: EIO" in
  let close_failed := mkError "Failed to close serial port: EBUSY" in
  1 < maxRetries (config m) /\
  exists m',
    print d m = Some (Err (mkError "Print failed after 2 attempts. Last error: Printer is not connected"), m') /\
    log m' = [CallPrint d (Err drain_failed);
              Delay 1000; CallDisconnect (Err close_failed); Warn 2 close_failed;
              CallPrint d (Err (mkError "Printer is not connected"))] /\
    ~ (exists (r1 r2 : result unit) (rest : list Call),
          [Delay 1000; CallDisconnect (Err close_failed); Warn 2 close_failed;
           CallPrint d (Err (mkError "Printer is not connected"))]
          = Delay (retryDelayMs (config m)) :: CallDisconnect r1 :: CallConnect r2 :: rest).
Proof.
  split; [reflexivity|].
  eexists. split; [vm_compute; reflexivity|]. split; [vm_compute; reflexivity|].
  intros (r1 & r2 & rest & H). discriminate H.
Qed.

Lemma maxRetries_not_positive_no_attempt_unknown_error_witness :
  let m := Examples.manager_connected 0 [] in
  initializeAdapter (config m)
  = initializeAdapter (mkConfig (interface (config m)) (usbName (config m))
                                (serialPort (config m)) 1 (retryDelayMs (config m))) /\
  print Examples.receipt m = Some (Err (exhausted 0 None), m) /\
  message (exhausted 0 None)
  = ("Print failed after " ++ string_of_Z 0
     ++ " attempts. Last error: Unknown error")%string.
Proof.
  exact (@maxRetries_not_positive_no_attempt_unknown_error
           Device Device_adapter Examples.receipt
           (Examples.manager_connected 0 []) (Examples.device_connected []) 0
           eq_refl eq_refl eq_refl (Z.le_refl 0)).
Defined.

End PrinterManagerFacts.

(** ** The adapters *)

Module AdapterFacts.
Import Types.

Lemma ask_io (w : World.t) : World.io (snd (World.ask w)) = World.io w.
Proof. unfold World.ask. destruct (World.script w); reflexivity. Qed.

Lemma ask_open_ports (w : World.t) :
  World.open_ports (snd (World.ask w)) = World.open_ports w.
Proof. unfold World.ask. destruct (World.script w); reflexivity. Qed.

(** The buffer of lines 110-124, byte for byte. *)
Lemma printBuffer_frame (d : payload) :
  SerialAdapter.printBuffer d
  = ([0x1B; 0x40] ++ Buffer.from_utf8 d ++ [0x0A; 0x0A] ++ [0x1D; 0x56; 0x41; 0x00])%Z.
Proof.
  unfold SerialAdapter.printBuffer, Buffer.concat.
  cbn [List.concat]. rewrite app_nil_r. reflexivity.
Qed.

(** The encoder on text of one, two, three and four bytes a character, and on
    a surrogate without its partner. *)
Example from_utf8_samples :
  Buffer.from_utf8 [72; 105]%Z = [0x48; 0x69]%Z /\
  Buffer.from_utf8 [0xE9]%Z = [0xC3; 0xA9]%Z /\
  Buffer.from_utf8 [0x20AC]%Z = [0xE2; 0x82; 0xAC]%Z /\
  Buffer.from_utf8 [0xD83D; 0xDE00]%Z = [0xF0; 0x9F; 0x98; 0x80]%Z /\
  Buffer.from_utf8 [0xD83D; 0x41]%Z = [0xEF; 0xBF; 0xBD; 0x41]%Z.
Proof. repeat split. Qed.

(** A byte or-ed with a byte is a byte. *)
Lemma lor_byte (a b : Z) :
  (0 <= a < 256 -> 0 <= b < 256 -> 0 <= Z.lor a b < 256)%Z.
Proof.
  intros Ha Hb.
  assert (Hnn : (0 <= Z.lor a b)%Z) by (apply Z.lor_nonneg; lia).
  split; [exact Hnn|].
  destruct (Z.eq_dec (Z.lor a b) 0) as [Hz|Hnz]; [lia|].
  assert (Hlog : forall x, (0 <= x < 256)%Z -> (Z.log2 x < 8)%Z).
  { intros x Hx. destruct (Z.eq_dec x 0) as [->|Hx0]; [reflexivity|].
    apply Z.log2_lt_pow2; [lia|]. exact (proj2 Hx). }
  change 256%Z with (2 ^ 8)%Z. apply Z.log2_lt_pow2; [lia|].
  rewrite Z.log2_lor by lia. apply Z.max_lub_lt; auto.
Qed.

Lemma low_six_bits (x : Z) : (0 <= Z.land x 0x3F < 64)%Z.
Proof.
  change 0x3F%Z with (Z.ones 6). rewrite Z.land_ones by lia.
  apply Z.mod_pos_bound. reflexivity.
Qed.

Lemma shiftr_bound (c n m : Z) :
  (0 <= n -> 0 <= c < m * 2 ^ n -> 0 <= Z.shiftr c n < m)%Z.
Proof.
  intros Hn Hc. rewrite Z.shiftr_div_pow2 by exact Hn.
  assert (Hpow : (0 < 2 ^ n)%Z) by (apply Z.pow_pos_nonneg; lia).
  split.
  - apply Z.div_pos; lia.
  - apply Z.div_lt_upper_bound; lia.
Qed.

(** The encoder writes bytes. *)
Lemma encode_code_point_bytes (c : Z) :
  (0 <= c < 0x110000)%Z ->
  Forall (fun b => 0 <= b < 256)%Z (Buffer.encode_code_point c).
Proof.
  intros Hc. unfold Buffer.encode_code_point.
  pose proof (low_six_bits c) as L0.
  pose proof (low_six_bits (Z.shiftr c 6)) as L6.
  pose proof (low_six_bits (Z.shiftr c 12)) as L12.
  destruct (Z.ltb_spec c 0x80) as [H1|H1]; [repeat constructor; lia|].
  destruct (Z.ltb_spec c 0x800) as [H2|H2].
  { pose proof (@shiftr_bound c 6 32 ltac:(lia) ltac:(lia)).
    repeat constructor; apply lor_byte; lia. }
  destruct (Z.ltb_spec c 0x10000) as [H3|H3].
  { pose proof (@shiftr_bound c 12 16 ltac:(lia) ltac:(lia)).
    repeat constructor; apply lor_byte; lia. }
  pose proof (@shiftr_bound c 18 8 ltac:(lia) ltac:(lia)).
  repeat constructor; apply lor_byte; lia.
Qed.

Lemma from_utf8_bytes (s : payload) :
  Forall (fun u => 0 <= u < 0x10000)%Z s ->
  Forall (fun b => 0 <= b < 256)%Z (Buffer.from_utf8 s).
Proof.
  assert (Hrep : Forall (fun b => 0 <= b < 256)%Z Buffer.replacement)
    by (repeat constructor; lia).
  assert (Hlen : forall (n : nat) (t : payload),
             (length t <= n)%nat ->
             Forall (fun u => 0 <= u < 0x10000)%Z t ->
             Forall (fun b => 0 <= b < 256)%Z (Buffer.from_utf8 t)).
  { induction n as [|n IH]; intros t Hn Ht.
    - destruct t; [constructor|simpl in Hn; lia].
    - destruct t as [|u rest]; [constructor|]. simpl in Hn.
      inversion Ht as [|u0 l0 Hu Hrest]; subst.
      assert (IHrest : Forall (fun b => 0 <= b < 256)%Z (Buffer.from_utf8 rest))
        by (apply IH; [lia|exact Hrest]).
      cbn [Buffer.from_utf8].
      destruct (Buffer.is_high_surrogate u) eqn:Hhi.
      + destruct rest as [|v rest']; [exact Hrep|].
        destruct (Buffer.is_low_surrogate v) eqn:Hlo.
        * inversion Hrest as [|v0 l1 Hv Hrest']; subst.
          apply Forall_app. split.
          -- unfold Buffer.is_high_surrogate, Buffer.is_low_surrogate in *.
             apply encode_code_point_bytes. lia.
          -- apply IH; [simpl in Hn; lia|exact Hrest'].
        * apply Forall_app. split; [exact Hrep|exact IHrest].
      + destruct (Buffer.is_low_surrogate u).
        * apply Forall_app. split; [exact Hrep|exact IHrest].
        * apply Forall_app. split; [apply encode_code_point_bytes; lia|exact IHrest]. }
  apply (Hlen (length s)). apply Nat.le_refl.
Qed.

(** X16. For a receipt of well-formed UTF-16 code units, everything in the
    buffer [print] writes is a byte, between 0 and 255. *)
Lemma printBuffer_bytes (d : payload) :
  Forall (fun u => 0 <= u < 0x10000)%Z d ->
  Forall (fun b => 0 <= b < 256)%Z (SerialAdapter.printBuffer d).
Proof.
  intros Hd. rewrite printBuffer_frame.
  repeat (apply Forall_app; split); try (repeat constructor; lia).
  apply from_utf8_bytes. exact Hd.
Qed.

Lemma writes_app (l1 l2 : list World.IO) :
  World.writes (l1 ++ l2) = World.writes l1 ++ World.writes l2.
Proof.
  induction l1 as [|e l1 IH]; simpl; [reflexivity|].
  destruct e; simpl; rewrite ?IH; reflexivity.
Qed.

(** C3. On a serial adapter that is connected and whose port is open,
    [print] writes one buffer to that port, whatever happens next: the bytes
    1B 40, the UTF-8 bytes of the payload, 0A 0A, and 1D 56 41 00; and the
    promise is resolved exactly when that write was accepted and the drain
    that follows it was confirmed. *)
Theorem serial_print_writes_one_framed_buffer :
  forall (d : payload) (a : SerialAdapter.t) (w : World.t) (h : nat),
    SerialAdapter.connected a = true ->
    SerialAdapter.port a = Some h ->
    World.serial_isOpen h w = true ->
    let frame :=
      ([0x1B; 0x40] ++ Buffer.from_utf8 d ++ [0x0A; 0x0A] ++ [0x1D; 0x56; 0x41; 0x00])%Z in
    exists (r : result unit) (w' : World.t),
      SerialAdapter.print d a w = (r, (a, w')) /\
      World.writes (World.io w') = World.writes (World.io w) ++ [(h, frame)] /\
      (r = Ok tt <->
       World.io w' = World.io w ++ [World.SerialWrite h frame None;
                                    World.SerialDrain h None]) /\
      (forall e, r = Err e ->
         exists msg,
           (World.io w' = World.io w ++ [World.SerialWrite h frame (Some msg)] /\
            message e = ("Failed to write to serial port: " ++ msg)%string) \/
           (World.io w' = World.io w ++ [World.SerialWrite h frame None;
                                         World.SerialDrain h (Some msg)] /\
            message e = ("Failed to drain serial port: " ++ msg)%string)).
Proof.
  intros d a w h Hc Hp Ho frame.
  unfold SerialAdapter.print, BaseAdapter.ensureConnected.
  rewrite Hc, Hp, Ho. simpl.
  unfold World.serial_write. rewrite printBuffer_frame. fold frame.
  pose proof (ask_io w) as Hio1.
  destruct (World.ask w) as [[msg|] w1]; simpl in Hio1.
  - eexists _, _. split; [reflexivity|]. simpl. rewrite Hio1.
    split; [rewrite writes_app; reflexivity|]. split.
    + split; [discriminate|]. intros H. apply app_inv_head in H. discriminate.
    + intros e He. injection He as <-. exists msg. left. auto.
  - unfold World.serial_drain. simpl.
    pose proof (ask_io (World.emit (World.SerialWrite h frame None) w1)) as Hio2.
    destruct (World.ask (World.emit (World.SerialWrite h frame None) w1))
      as [[msg|] w2]; simpl in Hio2.
    + eexists _, _. split; [reflexivity|]. simpl. rewrite Hio2, Hio1, <- app_assoc.
      split; [rewrite writes_app; reflexivity|]. split.
      * split; [discriminate|]. intros H. apply app_inv_head in H. discriminate.
      * intros e He. injection He as <-. exists msg. right. auto.
    + eexists _, _. split; [reflexivity|]. simpl. rewrite Hio2, Hio1, <- app_assoc.
      split; [rewrite writes_app; reflexivity|]. split.
      * split; reflexivity.
      * intros e He. discriminate.
Qed.

Lemma serial_print_writes_one_framed_buffer_witness :
  let d := Examples.receipt in
  let a := Examples.serial_connected in
  let w := Examples.world_port0 [] in
  let h := 0%nat in
  let frame :=
    ([0x1B; 0x40] ++ Buffer.from_utf8 d ++ [0x0A; 0x0A] ++ [0x1D; 0x56; 0x41; 0x00])%Z in
  SerialAdapter.connected a = true /\
  SerialAdapter.port a = Some h /\
  World.serial_isOpen h w = true /\
  exists (r : result unit) (w' : World.t),
    SerialAdapter.print d a w = (r, (a, w')) /\
    World.writes (World.io w') = World.writes (World.io w) ++ [(h, frame)] /\
    (r = Ok tt <->
     World.io w' = World.io w ++ [World.SerialWrite h frame None;
                                  World.SerialDrain h None]) /\
    (forall e, r = Err e ->
       exists msg,
         (World.io w' = World.io w ++ [World.SerialWrite h frame (Some msg)] /\
          message e = ("Failed to write to serial port: " ++ msg)%string) \/
         (World.io w' = World.io w ++ [World.SerialWrite h frame None;
                                       World.SerialDrain h (Some msg)] /\
          message e = ("Failed to drain serial port: " ++ msg)%string)).
Proof.
  split; [reflexivity|]. split; [reflexivity|]. split; [reflexivity|].
  exact (@serial_print_writes_one_framed_buffer
           Examples.receipt Examples.serial_connected (Examples.world_port0 []) 0%nat
           eq_refl eq_refl eq_refl).
Defined.

(** The bytes on the wire for the receipt "Hi". *)
Example serial_print_hi :
  exists w',
    SerialAdapter.print Examples.receipt Examples.serial_connected
                        (Examples.world_port0 [])
    = (Ok tt, (Examples.serial_connected, w')) /\
    World.writes (World.io w')
    = [(0%nat, [0x1B; 0x40; 0x48; 0x69; 0x0A; 0x0A; 0x1D; 0x56; 0x41; 0x00]%Z)].
Proof. eexists. split; reflexivity. Qed.

(** C4. Whichever the adapter, [print] on an adapter that says it is not
    connected throws "Printer is not connected" and touches nothing: the
    adapter and its device are as before, so nothing was written, logged or
    waited for. *)
Theorem print_when_not_connected_throws_without_io :
  forall (s : Device) (d : payload),
    Types.isConnected s = false ->
    Types.print d s = (Err (mkError "Printer is not connected"), s) /\
    World.io (snd (snd (Types.print d s))) = World.io (snd s) /\
    World.writes (World.io (snd (snd (Types.print d s)))) = World.writes (World.io (snd s)).
Proof.
  intros s d Hc.
  assert (H : Types.print d s = (Err (mkError "Printer is not connected"), s)).
  { destruct s as [a w]. destruct a as [a|a|a]; simpl in *;
      unfold adapter_isConnected, MockAdapter.isConnected, USBAdapter.isConnected,
        SerialAdapter.isConnected in Hc; simpl in Hc;
      unfold MockAdapter.print, USBAdapter.print, SerialAdapter.print,
        BaseAdapter.ensureConnected; rewrite Hc; reflexivity. }
  rewrite H. auto.
Qed.

Lemma print_when_not_connected_throws_without_io_witness :
  let s := Examples.device_fresh [] in
  let d := Examples.receipt in
  Types.isConnected s = false /\
  Types.print d s = (Err (mkError "Printer is not connected"), s) /\
  World.io (snd (snd (Types.print d s))) = World.io (snd s) /\
  World.writes (World.io (snd (snd (Types.print d s)))) = World.writes (World.io (snd s)).
Proof.
  split; [reflexivity|].
  exact (@print_when_not_connected_throws_without_io
           (Examples.device_fresh []) Examples.receipt eq_refl).
Defined.

Lemma isOpen_in (h : nat) (w : World.t) :
  World.serial_isOpen h w = true <-> In h (World.open_ports w).
Proof.
  unfold World.serial_isOpen. rewrite existsb_exists. split.
  - intros (x & Hin & Heq). apply Nat.eqb_eq in Heq. subst. exact Hin.
  - intros Hin. exists h. split; [exact Hin|apply Nat.eqb_refl].
Qed.

(** C9. Whichever the adapter and whatever its state, after [disconnect()]
    the adapter says it is not connected, and a second [disconnect()] right
    after resolves and changes nothing, neither in the adapter nor on the
    device; and [disconnect()] on an adapter that is not connected and holds
    no open transport resolves without touching the device. *)
Theorem disconnect_is_idempotent :
  forall s : Device,
    Types.isConnected (snd (Types.disconnect s)) = false /\
    Types.disconnect (snd (Types.disconnect s)) = (Ok tt, snd (Types.disconnect s)) /\
    (Types.isConnected s = false ->
     holds_open_transport s = false ->
     fst (Types.disconnect s) = Ok tt /\
     Types.isConnected (snd (Types.disconnect s)) = false /\
     snd (snd (Types.disconnect s)) = snd s).
Proof.
  intros [a w]. destruct a as [a|a|a]; simpl.
  - repeat split.
  - repeat split.
  - unfold holds_open_transport, held_port, SerialAdapter.disconnect. simpl.
    destruct (SerialAdapter.port a) as [h|] eqn:Hp; simpl.
    + destruct (World.serial_isOpen h w) eqn:Ho; simpl.
      * unfold World.serial_close.
        destruct (World.ask w) as [[msg|] w1]; simpl;
          (split; [reflexivity|]); (split; [reflexivity|]); intros _ H; discriminate H.
      * repeat split.
    + repeat split.
Qed.

(** Every open transport is the one the adapter holds. *)
Lemma no_leak_nothing_open (s : Device) :
  no_leak s -> holds_open_transport s = false -> open_transports s = [].
Proof.
  unfold no_leak, holds_open_transport. intros Hnl Hno.
  destruct (open_transports s) as [|h l] eqn:Hopen; [reflexivity|].
  exfalso. specialize (Hnl h (or_introl eq_refl)). rewrite Hnl in Hno.
  assert (Hin : In h (World.open_ports (snd s))).
  { unfold open_transports in Hopen. rewrite Hopen. left. reflexivity. }
  apply isOpen_in in Hin. congruence.
Qed.

(** [connect()] leaves the open transports as they are, or opens the one it
    created, which the adapter then holds. *)
Lemma connect_open_transports (s : Device) :
  open_transports (snd (Types.connect s)) = open_transports s \/
  exists h, open_transports (snd (Types.connect s)) = open_transports s ++ [h] /\
            held_port (snd (Types.connect s)) = Some h.
Proof.
  destruct s as [a w]. unfold open_transports, held_port.
  destruct a as [a|a|a]; simpl.
  - left. reflexivity.
  - left. unfold USBAdapter.connect, World.usb_new, USBAdapter.connect_failed.
    pose proof (ask_open_ports w) as H1.
    destruct (World.ask w) as [[msg|] w1]; simpl in *; [exact H1|].
    unfold World.usb_isPrinterConnected.
    match goal with |- context [World.ask ?x] =>
      pose proof (ask_open_ports x) as H2; destruct (World.ask x) as [[msg|] w2] end;
      simpl in *; [congruence|].
    destruct (World.online w2) as [|[|] rest]; simpl; congruence.
  - unfold SerialAdapter.connect, World.serial_new.
    pose proof (ask_open_ports w) as H1.
    destruct (World.ask w) as [[msg|] w1]; simpl in *; [left; exact H1|].
    unfold World.serial_open.
    match goal with |- context [World.ask ?x] =>
      pose proof (ask_open_ports x) as H2; destruct (World.ask x) as [[msg|] w2] end;
      simpl in *.
    + left. congruence.
    + right. exists (World.created w1). split; [congruence|reflexivity].
Qed.

Lemma connect_keeps_open (s : Device) (h : nat) :
  In h (open_transports s) -> In h (open_transports (snd (Types.connect s))).
Proof.
  intros Hin. destruct (connect_open_transports s) as [->|(h' & -> & _)].
  - exact Hin.
  - apply in_or_app. left. exact Hin.
Qed.

Lemma connect_from_nothing_open (s : Device) :
  open_transports s = [] ->
  no_leak (snd (Types.connect s)) /\
  (length (open_transports (snd (Types.connect s))) <= 1)%nat.
Proof.
  intros Hnone. unfold no_leak.
  destruct (connect_open_transports s) as [->|(h' & -> & Hheld)]; rewrite Hnone; simpl.
  - split; [intros h []|lia].
  - split; [|lia]. intros h [<-|[]]. exact Hheld.
Qed.

Lemma disconnect_closes_held (s : Device) :
  no_leak s ->
  fst (Types.disconnect s) = Ok tt ->
  open_transports (snd (Types.disconnect s)) = [].
Proof.
  destruct s as [a w]. unfold no_leak, open_transports, held_port. simpl.
  intros Hnl Hok.
  destruct a as [a|a|a]; simpl in *.
  - destruct (World.open_ports w) as [|h l]; [reflexivity|].
    specialize (Hnl h (or_introl eq_refl)). discriminate.
  - destruct (World.open_ports w) as [|h l]; [reflexivity|].
    specialize (Hnl h (or_introl eq_refl)). discriminate.
  - unfold SerialAdapter.disconnect in *.
    destruct (SerialAdapter.port a) as [h|] eqn:Hp; simpl in *.
    + destruct (World.serial_isOpen h w) eqn:Ho; simpl in *.
      * unfold World.serial_close in *.
        pose proof (ask_open_ports w) as H1.
        destruct (World.ask w) as [[msg|] w1]; simpl in *; [discriminate|].
        rewrite H1.
        assert (Hflt : forall l, (forall x, In x l -> Some h = Some x) ->
                                 filter (fun h' => negb (Nat.eqb h h')) l = []).
        { induction l as [|x l IH]; intros Hl; simpl; [reflexivity|].
          assert (Hx : Some h = Some x) by (apply Hl; left; reflexivity).
          injection Hx as <-. rewrite Nat.eqb_refl. simpl.
          apply IH. intros y Hy. apply Hl. right. exact Hy. }
        apply Hflt. exact Hnl.
      * destruct (World.open_ports w) as [|x l] eqn:Hopen; [reflexivity|].
        specialize (Hnl x (or_introl eq_refl)). injection Hnl as ->.
        assert (Hin : In x (World.open_ports w)) by (rewrite Hopen; left; reflexivity).
        apply isOpen_in in Hin. congruence.
    + destruct (World.open_ports w) as [|x l]; [reflexivity|].
      specialize (Hnl x (or_introl eq_refl)). discriminate.
Qed.

(** [connect()] never calls [close]. *)
Lemma connect_calls_no_close (s : Device) :
  World.closes (World.io (snd (snd (Types.connect s))))
  = World.closes (World.io (snd s)).
Proof.
  assert (Hsnoc : forall l e,
             match e with World.SerialClose _ _ => False | _ => True end ->
             World.closes (l ++ [e]) = World.closes l).
  { induction l as [|x l IH]; intros e He; simpl.
    - destruct e; simpl; auto. contradiction.
    - destruct x; simpl; rewrite ?(IH e He); reflexivity. }
  destruct s as [a w]. destruct a as [a|a|a]; simpl.
  - apply Hsnoc. exact I.
  - unfold USBAdapter.connect, World.usb_new, USBAdapter.connect_failed.
    pose proof (ask_io w) as H1.
    destruct (World.ask w) as [[msg|] w1]; simpl in *; [rewrite H1; reflexivity|].
    unfold World.usb_isPrinterConnected.
    match goal with |- context [World.ask ?x] =>
      pose proof (ask_io x) as H2; destruct (World.ask x) as [[msg|] w2] end;
      simpl in *.
    + rewrite H2. simpl. rewrite Hsnoc by exact I. rewrite H1. reflexivity.
    + destruct (World.online w2) as [|[|] rest]; simpl;
        rewrite Hsnoc by exact I; rewrite H2; simpl;
        rewrite Hsnoc by exact I; rewrite H1; reflexivity.
  - unfold SerialAdapter.connect, World.serial_new.
    pose proof (ask_io w) as H1.
    destruct (World.ask w) as [[msg|] w1]; simpl in *; [rewrite H1; reflexivity|].
    unfold World.serial_open.
    match goal with |- context [World.ask ?x] =>
      pose proof (ask_io x) as H2; destruct (World.ask x) as [[msg|] w2] end;
      simpl in *;
      rewrite Hsnoc by exact I; rewrite H2; simpl;
      rewrite Hsnoc by exact I; rewrite H1; reflexivity.
Qed.

(** C8, as the code has it.  Whichever the adapter and whatever its state,
    [connect()] tears nothing down: it never calls [close], and every
    transport that was open before it is open after it, held by the adapter
    or not.  It opens at most one transport, the one it created, which the
    adapter then holds.  So: if no transport at all is open when [connect()]
    is called, at most one is open afterwards and it is the one the adapter
    holds; and that is the case after a [disconnect()] that resolved on an
    adapter that held every open transport.  Nothing of the kind holds when
    a transport is open that the adapter does not hold, as after a
    [disconnect()] whose [close] failed. *)
Theorem connect_closes_nothing_one_transport_after_disconnect :
  forall s : Device,
    World.closes (World.io (snd (snd (Types.connect s))))
    = World.closes (World.io (snd s)) /\
    (forall h, In h (open_transports s) ->
               In h (open_transports (snd (Types.connect s)))) /\
    (open_transports (snd (Types.connect s)) = open_transports s \/
     exists h, open_transports (snd (Types.connect s)) = open_transports s ++ [h] /\
               held_port (snd (Types.connect s)) = Some h) /\
    (open_transports s = [] ->
     no_leak (snd (Types.connect s)) /\
     (length (open_transports (snd (Types.connect s))) <= 1)%nat) /\
    (no_leak s ->
     fst (Types.disconnect s) = Ok tt ->
     open_transports (snd (Types.disconnect s)) = [] /\
     no_leak (snd (Types.connect (snd (Types.disconnect s)))) /\
     (length (open_transports (snd (Types.connect (snd (Types.disconnect s))))) <= 1)%nat).
Proof.
  intros s. split; [apply connect_calls_no_close|]. split; [|split; [|split]].
  - intros h. apply connect_keeps_open.
  - apply connect_open_transports.
  - apply connect_from_nothing_open.
  - intros Hnl Hok.
    pose proof (@disconnect_closes_held s Hnl Hok) as Hnone.
    split; [exact Hnone|]. apply connect_from_nothing_open. exact Hnone.
Qed.

(** A connected serial adapter that holds the only open port: [disconnect()]
    closes it, and the [connect()] that follows leaves one port open, the
    new one. *)
Lemma connect_closes_nothing_one_transport_after_disconnect_witness :
  let s := Examples.device_connected [] in
  no_leak s /\
  fst (Types.disconnect s) = Ok tt /\
  World.closes (World.io (snd (snd (Types.connect s))))
  = World.closes (World.io (snd s)) /\
  (forall h, In h (open_transports s) ->
             In h (open_transports (snd (Types.connect s)))) /\
  (open_transports (snd (Types.connect s)) = open_transports s \/
   exists h, open_transports (snd (Types.connect s)) = open_transports s ++ [h] /\
             held_port (snd (Types.connect s)) = Some h) /\
  (open_transports s = [] ->
   no_leak (snd (Types.connect s)) /\
   (length (open_transports (snd (Types.connect s))) <= 1)%nat) /\
  (no_leak s ->
   fst (Types.disconnect s) = Ok tt ->
   open_transports (snd (Types.disconnect s)) = [] /\
   no_leak (snd (Types.connect (snd (Types.disconnect s)))) /\
   (length (open_transports (snd (Types.connect (snd (Types.disconnect s))))) <= 1)%nat).
Proof.
  assert (Hnl : no_leak (Examples.device_connected [])).
  { intros h [<-|[]]. reflexivity. }
  split; [exact Hnl|]. split; [reflexivity|].
  exact (connect_closes_nothing_one_transport_after_disconnect
           (Examples.device_connected [])).
Defined.

(** C8 as the specification words it fails: a serial adapter that holds port
    object 0, open, is connected again, and the operating system refuses to
    open the device a second time.  [connect()] closed nothing: it made port
    object 1, which becomes the adapter's although it is not open; port
    object 0 is still open and the adapter no longer refers to it, so that
    the [disconnect()] that follows has nothing to close and leaves it
    open. *)
Lemma connect_leaves_prior_serial_port_open :
  let s := Examples.device_connected Examples.script_open_fails in
  let refused :=
    mkError ("Failed to open serial port " ++ quoted "COM3" ++ ": Access denied") in
  holds_open_transport s = true /\
  held_port s = Some 0%nat /\
  open_transports s = [0%nat] /\
  exists s',
    Types.connect s = (Err refused, s') /\
    World.io (snd s')
    = [World.SerialNew 1; World.SerialOpen 1 (Some "Access denied"%string)] /\
    World.closes (World.io (snd s')) = [] /\
    open_transports s' = [0%nat] /\
    held_port s' = Some 1%nat /\
    ~ no_leak s' /\
    exists s'',
      Types.disconnect s' = (Ok tt, s'') /\
      World.closes (World.io (snd s'')) = [] /\
      held_port s'' = None /\
      open_transports s'' = [0%nat].
Proof.
  split; [reflexivity|]. split; [reflexivity|]. split; [reflexivity|].
  eexists. split; [reflexivity|]. split; [reflexivity|]. split; [reflexivity|].
  split; [reflexivity|]. split; [reflexivity|]. split.
  - intros Hnl. specialize (Hnl 0%nat (or_introl eq_refl)). discriminate Hnl.
  - eexists. split; [reflexivity|]. split; [reflexivity|]. split; reflexivity.
Qed.

End AdapterFacts.

(** ** The sequencer: flags, promises and order when [clear] is used too *)

Module PrintQueueLedger.
Import PrintQueue PrintQueueFacts Ledger.

Lemma reachable_Wf (evs : list Event) (s : State) :
  run init evs = Some s -> Wf s.
Proof. intros Hrun. exact (Wf_run evs Wf_init Hrun). Qed.

(** X1. In every state the queue can reach, [isProcessing()] is true exactly
    when a print is in flight, and when it is false nothing is queued:
    [getQueueLength()] is 0. *)
Theorem processing_flag_tracks_flight :
  forall (evs : list Event) (s : State),
    run init evs = Some s ->
    (isProcessing s = true <-> exists j, awaiting s = Some j) /\
    (isProcessing s = false -> getQueueLength s = 0%nat /\ awaiting s = None).
Proof.
  intros evs s Hrun. destruct (reachable_Wf evs Hrun) as [Hflag Hidle _ _ _].
  unfold isProcessing, getQueueLength. rewrite Hflag.
  destruct (awaiting s) as [j|] eqn:Ha; simpl.
  - split; [split; eauto|discriminate].
  - split.
    + split; [discriminate|]. intros (j & Hj). discriminate.
    + intros _. rewrite (Hidle eq_refl). auto.
Qed.

Lemma processing_flag_tracks_flight_witness :
  let evs := Examples.three_submissions in
  let s := Examples.queue_after_three in
  run init evs = Some s /\
  (isProcessing s = true <-> exists j, awaiting s = Some j) /\
  (isProcessing s = false -> getQueueLength s = 0%nat /\ awaiting s = None).
Proof.
  split; [reflexivity|].
  exact (@processing_flag_tracks_flight Examples.three_submissions Examples.queue_after_three eq_refl).
Defined.

(** X6. In every state the queue can reach: [enqueue] on an idle queue calls
    the print function on the new payload in the same turn and leaves the
    queue empty; [enqueue] while a print is in flight only appends the job
    and calls nothing. *)
Theorem enqueue_starts_dispatch_only_when_idle :
  forall (evs : list Event) (s : State) (d : payload),
    run init evs = Some s ->
    (processing s = false ->
     enqueue d s = mkState [] true (Some (mkJob d (promises s)))
                           (S (promises s)) (trace s ++ [Called d])) /\
    (processing s = true ->
     enqueue d s = mkState (queue s ++ [mkJob d (promises s)]) true
                           (awaiting s) (S (promises s)) (trace s)).
Proof.
  intros evs s d Hrun. destruct (reachable_Wf evs Hrun) as [Hflag Hidle _ _ _].
  split; intros Hp; unfold enqueue; simpl; rewrite Hp; simpl.
  - rewrite Hp in Hflag. destruct (awaiting s) as [j|] eqn:Ha; [discriminate|].
    rewrite (Hidle eq_refl). unfold processQueue, processQueue_body, dispatch.
    simpl. reflexivity.
  - reflexivity.
Qed.

Lemma enqueue_starts_dispatch_only_when_idle_witness :
  let evs := Examples.three_submissions in
  let s := Examples.queue_after_three in
  let d := Examples.receipt in
  run init evs = Some s /\
  (processing s = false ->
   enqueue d s = mkState [] true (Some (mkJob d (promises s)))
                         (S (promises s)) (trace s ++ [Called d])) /\
  (processing s = true ->
   enqueue d s = mkState (queue s ++ [mkJob d (promises s)]) true
                         (awaiting s) (S (promises s)) (trace s)).
Proof.
  split; [reflexivity|].
  exact (@enqueue_starts_dispatch_only_when_idle
           Examples.three_submissions Examples.queue_after_three
           Examples.receipt eq_refl).
Defined.

(** *** Each promise is settled once *)

Lemma live_enqueue (s : State) (d : payload) :
  Wf s -> live (enqueue d s) = live s ++ [promises s].
Proof.
  intros [Hflag Hidle _ _ _]. unfold enqueue, live. simpl. rewrite Hflag.
  destruct (awaiting s) as [j|] eqn:Ha; simpl.
  - rewrite map_app. reflexivity.
  - rewrite (Hidle eq_refl). reflexivity.
Qed.

Lemma settlements_enqueue (s : State) (d : payload) (h : nat) :
  settlements h (trace (enqueue d s)) = settlements h (trace s).
Proof.
  unfold enqueue, processQueue, processQueue_body, dispatch. simpl.
  destruct (processing s); simpl; [reflexivity|].
  destruct (queue s); simpl; rewrite settlements_app; simpl; apply app_nil_r.
Qed.

Lemma resume_shape (s s' : State) (r : result unit) :
  resume r s = Some s' ->
  exists j, awaiting s = Some j /\
            live s = handle j :: live s' /\
            promises s' = promises s /\
            forall h, settlements h (trace s')
                      = settlements h (trace s)
                        ++ (if Nat.eqb h (handle j) then [settlement_of r] else []).
Proof.
  unfold resume. destruct (awaiting s) as [j|] eqn:Ha; [|discriminate].
  intros H. injection H as <-. exists j. split; [reflexivity|].
  unfold dispatch, live. simpl. rewrite Ha.
  destruct (queue s) as [|j' rest]; simpl.
  - repeat split. intros h. rewrite settlements_app. simpl.
    destruct (Nat.eqb h (handle j)); reflexivity.
  - repeat split. intros h. rewrite !settlements_app. simpl.
    destruct (Nat.eqb h (handle j)); simpl; rewrite ?app_nil_r; reflexivity.
Qed.

Lemma settled_once_init : settled_once init.
Proof. intros h Hlt. simpl in Hlt. lia. Qed.

Lemma settled_once_enqueue (s : State) (d : payload) :
  Wf s -> settled_once s -> settled_once (enqueue d s).
Proof.
  intros Hwf Hso h Hlt Hnot. rewrite (@live_enqueue s d Hwf) in Hnot.
  rewrite settlements_enqueue.
  assert (Hp : promises (enqueue d s) = S (promises s)).
  { unfold enqueue, processQueue, processQueue_body, dispatch. simpl.
    destruct (processing s); simpl; [reflexivity|].
    destruct (queue s); reflexivity. }
  rewrite Hp in Hlt. apply Hso.
  - assert (h <> promises s) by (intros ->; apply Hnot, in_or_app; right; left; reflexivity).
    lia.
  - intros Hin. apply Hnot, in_or_app. left. exact Hin.
Qed.

Lemma settled_once_resume (s s' : State) (r : result unit) :
  Wf s -> settled_once s -> resume r s = Some s' -> settled_once s'.
Proof.
  intros Hwf Hso Hr h Hlt Hnot.
  destruct (@resume_shape s s' r Hr) as (j & Ha & Hlive & Hp & Hset).
  rewrite Hset. rewrite Hp in Hlt.
  destruct (Nat.eqb_spec h (handle j)) as [->|Hne].
  - rewrite (wf_fresh Hwf) by (left; rewrite Hlive; left; reflexivity). reflexivity.
  - rewrite app_nil_r. apply Hso; [exact Hlt|].
    rewrite Hlive. intros [Heq|Hin]; [congruence|contradiction].
Qed.

Lemma settled_once_clear (s : State) :
  Wf s -> settled_once s -> settled_once (clear s).
Proof.
  intros Hwf Hso h Hlt Hnot. unfold clear in *. simpl in *.
  unfold live in Hnot. simpl in Hnot. rewrite app_nil_r in Hnot.
  rewrite settlements_app.
  destruct (in_dec Nat.eq_dec h (map handle (queue s))) as [Hq|Hq].
  - rewrite (wf_fresh Hwf) by (left; unfold live; apply in_or_app; right; exact Hq).
    simpl. rewrite settlements_cleared_one; [reflexivity| |exact Hq].
    pose proof (wf_nodup Hwf) as Hnd. unfold live in Hnd.
    apply NoDup_app_remove_l in Hnd. exact Hnd.
  - rewrite settlements_cleared_other by exact Hq. rewrite app_nil_r.
    apply Hso; [exact Hlt|]. unfold live. intros Hin.
    apply in_app_or in Hin as [Hin|Hin]; contradiction.
Qed.

Lemma settled_once_run (evs : list Event) :
  forall s s' : State,
    Wf s -> settled_once s -> run s evs = Some s' -> settled_once s'.
Proof.
  induction evs as [|ev evs IH]; intros s s' Hwf Hso Hrun; simpl in *.
  - injection Hrun as <-. exact Hso.
  - destruct ev as [d|r|]; simpl in *.
    + apply (IH (enqueue d s)); auto using Wf_enqueue, settled_once_enqueue.
    + destruct (resume r s) as [s1|] eqn:Hr; [|discriminate].
      apply (IH s1); auto.
      * apply (Wf_resume r Hwf Hr).
      * apply (@settled_once_resume s s1 r Hwf Hso Hr).
    + apply (IH (clear s)); auto using Wf_clear, settled_once_clear.
Qed.

(** X2. Whatever the order of [enqueue], completions and [clear], no promise
    is ever settled twice: each [resolve]/[reject] pair is used at most
    once. *)
Theorem promise_settled_at_most_once :
  forall (evs : list Event) (s : State) (h : nat),
    run init evs = Some s ->
    (length (settlements h (trace s)) <= 1)%nat.
Proof.
  intros evs s h Hrun.
  pose proof (reachable_Wf evs Hrun) as Hwf.
  pose proof (settled_once_run evs Wf_init settled_once_init Hrun) as Hso.
  destruct (le_lt_dec (promises s) h) as [Hge|Hlt].
  - rewrite (wf_fresh Hwf) by (right; exact Hge). simpl. lia.
  - destruct (in_dec Nat.eq_dec h (live s)) as [Hin|Hnot].
    + rewrite (wf_fresh Hwf) by (left; exact Hin). simpl. lia.
    + rewrite (Hso h Hlt Hnot). lia.
Qed.

Lemma promise_settled_at_most_once_witness :
  run init Examples.three_submissions = Some Examples.queue_after_three /\
  (length (settlements 1 (trace Examples.queue_after_three)) <= 1)%nat.
Proof.
  split; [reflexivity|].
  exact (@promise_settled_at_most_once Examples.three_submissions
           Examples.queue_after_three 1 eq_refl).
Defined.

(** X3. No job is dropped without an answer: in every state the queue can
    reach, a promise that was handed out is either still pending (its job is
    queued or in flight) and not settled, or settled exactly once; a number
    not handed out yet is not settled. *)
Theorem promise_pending_or_settled :
  forall (evs : list Event) (s : State) (h : nat),
    run init evs = Some s ->
    ((h < promises s)%nat ->
     (In h (live s) /\ settlements h (trace s) = []) \/
     (~ In h (live s) /\ length (settlements h (trace s)) = 1%nat)) /\
    ((promises s <= h)%nat -> settlements h (trace s) = []) /\
    promises s = length (submitted evs).
Proof.
  intros evs s h Hrun.
  pose proof (reachable_Wf evs Hrun) as Hwf.
  pose proof (settled_once_run evs Wf_init settled_once_init Hrun) as Hso.
  split; [|split].
  - intros Hlt. destruct (in_dec Nat.eq_dec h (live s)) as [Hin|Hnot].
    + left. split; [exact Hin|]. apply (wf_fresh Hwf). left. exact Hin.
    + right. split; [exact Hnot|]. apply Hso; assumption.
  - intros Hge. apply (wf_fresh Hwf). right. exact Hge.
  - clear Hwf Hso h.
    assert (Hgen : forall evs s0 s1, run s0 evs = Some s1 ->
                     promises s1 = (promises s0 + length (submitted evs))%nat).
    { clear. induction evs as [|ev evs IH]; intros s0 s1 Hrun; simpl in *.
      - injection Hrun as <-. lia.
      - destruct ev as [d|r|]; simpl in *.
        + rewrite (IH _ _ Hrun). unfold enqueue, processQueue, processQueue_body, dispatch.
          simpl. destruct (processing s0); simpl; [lia|].
          destruct (queue s0); simpl; lia.
        + destruct (resume r s0) as [s2|] eqn:Hr; [|discriminate].
          rewrite (IH _ _ Hrun).
          destruct (@resume_shape s0 s2 r Hr) as (j & _ & _ & -> & _). reflexivity.
        + rewrite (IH _ _ Hrun). reflexivity. }
    rewrite (Hgen evs init s Hrun). reflexivity.
Qed.

Lemma promise_pending_or_settled_witness :
  let evs := Examples.three_submissions in
  let s := Examples.queue_after_three in
  run init evs = Some s /\
  ((2 < promises s)%nat ->
   (In 2%nat (live s) /\ settlements 2 (trace s) = []) \/
   (~ In 2%nat (live s) /\ length (settlements 2 (trace s)) = 1%nat)) /\
  ((promises s <= 2)%nat -> settlements 2 (trace s) = []) /\
  promises s = length (submitted evs).
Proof.
  split; [reflexivity|].
  exact (@promise_pending_or_settled Examples.three_submissions
           Examples.queue_after_three 2 eq_refl).
Defined.

(** *** Each job gets the outcome of its own print *)

Lemma finish_keeps_others (outcomes : list (result unit)) :
  forall (s s' : State) (h : nat),
    run s (map Finish outcomes) = Some s' ->
    ~ In h (live s) ->
    settlements h (trace s') = settlements h (trace s).
Proof.
  induction outcomes as [|r outcomes IH]; intros s s' h Hrun Hnot; simpl in *.
  - injection Hrun as <-. reflexivity.
  - destruct (resume r s) as [s1|] eqn:Hr; [|discriminate].
    destruct (@resume_shape s s1 r Hr) as (j & Ha & Hlive & Hp & Hset).
    rewrite Hlive in Hnot.
    rewrite (IH s1 s' h Hrun) by (intros Hin; apply Hnot; right; exact Hin).
    rewrite Hset. destruct (Nat.eqb_spec h (handle j)) as [->|Hne].
    + exfalso. apply Hnot. left. reflexivity.
    + apply app_nil_r.
Qed.

Lemma own_outcomes (outcomes : list (result unit)) :
  forall s : State,
    Wf s -> length outcomes = pending s ->
    exists s',
      run s (map Finish outcomes) = Some s' /\
      forall (i h : nat) (r : result unit),
        nth_error (live s) i = Some h ->
        nth_error outcomes i = Some r ->
        settlements h (trace s') = [settlement_of r].
Proof.
  induction outcomes as [|r outcomes IH]; intros s Hwf Hlen; simpl in *.
  - exists s. split; [reflexivity|]. intros i h r _ Hr. destruct i; discriminate.
  - destruct (resume r s) as [s1|] eqn:Hr.
    + destruct (@resume_shape s s1 r Hr) as (j & Ha & Hlive & Hp & Hset).
      pose proof (@pending_resume s s1 r Hr) as Hpend.
      destruct (IH s1 (Wf_resume r Hwf Hr) ltac:(lia)) as (s' & Hrun & Hown).
      exists s'. split; [exact Hrun|].
      intros i h r0 Hi Hr0. rewrite Hlive in Hi. destruct i as [|i]; simpl in *.
      * injection Hi as <-. injection Hr0 as <-.
        pose proof (wf_nodup Hwf) as Hnd. rewrite Hlive in Hnd.
        inversion Hnd as [|x l Hnotin _]; subst.
        rewrite (@finish_keeps_others outcomes s1 s' (handle j) Hrun Hnotin).
        rewrite Hset, Nat.eqb_refl.
        rewrite (wf_fresh Hwf) by (left; rewrite Hlive; left; reflexivity).
        reflexivity.
      * apply (Hown i h r0 Hi Hr0).
    + exfalso. unfold resume in Hr. unfold pending in Hlen.
      destruct (awaiting s) eqn:Ha; [discriminate|].
      rewrite (wf_idle Hwf Ha) in Hlen. simpl in Hlen. lia.
Qed.

(** X4. In every state the queue can reach, when the prints of the pending
    jobs end with the outcomes [outcomes] (the job in flight first, then the
    queued jobs in order), the promise of the i-th pending job is settled
    once, with the i-th outcome: resolved if its own print resolved, rejected
    with its own print's error otherwise, whatever happened to the others. *)
Theorem each_job_settled_with_its_own_outcome :
  forall (evs : list Event) (s : State) (outcomes : list (result unit)),
    run init evs = Some s ->
    length outcomes = pending s ->
    exists s',
      run s (map Finish outcomes) = Some s' /\
      forall (i h : nat) (r : result unit),
        nth_error (live s) i = Some h ->
        nth_error outcomes i = Some r ->
        settlements h (trace s')
        = [match r with
           | Ok _ => Resolved
           | Err e => Rejected e
           end].
Proof.
  intros evs s outcomes Hrun Hlen.
  apply own_outcomes; [exact (reachable_Wf evs Hrun)|exact Hlen].
Qed.

Lemma each_job_settled_with_its_own_outcome_witness :
  let evs := Examples.three_submissions in
  let s := Examples.queue_after_three in
  let outcomes := [Err (mkError "offline"); Ok tt; Ok tt] in
  run init evs = Some s /\
  length outcomes = pending s /\
  exists s',
    run s (map Finish outcomes) = Some s' /\
    forall (i h : nat) (r : result unit),
      nth_error (live s) i = Some h ->
      nth_error outcomes i = Some r ->
      settlements h (trace s')
      = [match r with
         | Ok _ => Resolved
         | Err e => Rejected e
         end].
Proof.
  split; [reflexivity|]. split; [reflexivity|].
  exact (@each_job_settled_with_its_own_outcome
           Examples.three_submissions Examples.queue_after_three
           [Err (mkError "offline"); Ok tt; Ok tt] eq_refl eq_refl).
Defined.

(** *** Order of the prints when [clear] is used *)

Lemma subseq_refl {A : Type} (l : list A) : subseq l l.
Proof. induction l; [apply subseq_nil|apply subseq_keep; assumption]. Qed.

Lemma subseq_snoc {A : Type} (l1 l2 : list A) (x : A) :
  subseq l1 l2 -> subseq (l1 ++ [x]) (l2 ++ [x]).
Proof.
  induction 1; simpl.
  - apply subseq_keep, subseq_nil.
  - apply subseq_skip. assumption.
  - apply subseq_keep. assumption.
Qed.

Lemma subseq_nil_l {A : Type} (l : list A) : subseq [] l.
Proof. induction l; [apply subseq_nil|apply subseq_skip; assumption]. Qed.

Lemma subseq_drop_tail {A : Type} (l1 l2 l : list A) :
  subseq (l1 ++ l2) l -> subseq l1 l.
Proof.
  revert l. induction l1 as [|x l1 IH]; intros l H; simpl in *.
  - apply subseq_nil_l.
  - remember (x :: l1 ++ l2) as l0 eqn:Hl0. revert Hl0.
    induction H as [|y m1 m2 H IHs|y m1 m2 H IHs]; intros Hl0.
    + discriminate.
    + apply subseq_skip. apply IHs. exact Hl0.
    + injection Hl0 as -> ->. apply subseq_keep. apply IH. exact H.
Qed.

Lemma calls_cleared (q : list Job) :
  calls (map (fun j => Settle (handle j) (Rejected queue_cleared)) q) = [].
Proof. induction q; simpl; auto. Qed.

Lemma order_run (evs : list Event) :
  forall (sub : list payload) (s s' : State),
    Wf s ->
    subseq (calls (trace s) ++ map data (queue s)) sub ->
    run s evs = Some s' ->
    subseq (calls (trace s') ++ map data (queue s')) (sub ++ submitted evs).
Proof.
  induction evs as [|ev evs IH]; intros sub s s' Hwf Hsub Hrun; simpl in *.
  - injection Hrun as <-. rewrite app_nil_r. exact Hsub.
  - destruct ev as [d|r|]; simpl in *.
    + replace (sub ++ d :: submitted evs) with ((sub ++ [d]) ++ submitted evs)
        by (rewrite <- app_assoc; reflexivity).
      apply (IH _ (enqueue d s)); [apply Wf_enqueue; exact Hwf| |exact Hrun].
      assert (Heq : calls (trace (enqueue d s)) ++ map data (queue (enqueue d s))
                    = (calls (trace s) ++ map data (queue s)) ++ [d]).
      { destruct Hwf as [Hflag Hidle _ _ _]. unfold enqueue. simpl. rewrite Hflag.
        destruct (awaiting s) as [j|] eqn:Ha; simpl.
        - rewrite map_app, app_assoc. reflexivity.
        - rewrite (Hidle eq_refl). unfold processQueue, processQueue_body, dispatch.
          simpl. rewrite calls_app. simpl. rewrite !app_nil_r. reflexivity. }
      rewrite Heq. apply subseq_snoc. exact Hsub.
    + destruct (resume r s) as [s1|] eqn:Hr; [|discriminate].
      apply (IH _ s1); [apply (Wf_resume r Hwf Hr)| |exact Hrun].
      assert (Heq : calls (trace s1) ++ map data (queue s1)
                    = calls (trace s) ++ map data (queue s)).
      { unfold resume in Hr. destruct (awaiting s) as [j|]; [|discriminate].
        injection Hr as <-. unfold dispatch. simpl.
        destruct (queue s) as [|j' rest]; simpl.
        - rewrite calls_app. simpl. rewrite !app_nil_r. reflexivity.
        - rewrite !calls_app. simpl. rewrite app_nil_r, <- app_assoc. reflexivity. }
      rewrite Heq. exact Hsub.
    + apply (IH _ (clear s)); [apply Wf_clear; exact Hwf| |exact Hrun].
      unfold clear. simpl. rewrite calls_app, calls_cleared, !app_nil_r.
      apply (@subseq_drop_tail _ _ _ _ Hsub).
Qed.

(** X5. Also when [clear] is called in between: the payloads the print
    function was called with, followed by those still queued, are submitted
    payloads in the order of submission, each at most as often as it was
    submitted; [clear] only leaves some out. *)
Theorem printed_in_submission_order_despite_clear :
  forall (evs : list Event) (s : State),
    run init evs = Some s ->
    subseq (calls (trace s) ++ map data (queue s)) (submitted evs) /\
    subseq (calls (trace s)) (submitted evs).
Proof.
  intros evs s Hrun.
  assert (H : subseq (calls (trace s) ++ map data (queue s)) ([] ++ submitted evs)).
  { apply (@order_run evs [] init s Wf_init); [constructor|exact Hrun]. }
  simpl in H. split; [exact H|]. apply (@subseq_drop_tail _ _ _ _ H).
Qed.

Lemma printed_in_submission_order_despite_clear_witness :
  let evs := Examples.three_submissions ++ [Clear; Finish (Ok tt); Enqueue Examples.receipt] in
  let s := mkState [] true (Some (mkJob Examples.receipt 3)) 4
             [Called Examples.receipt_A;
              Settle 1 (Rejected queue_cleared); Settle 2 (Rejected queue_cleared);
              Completed; Settle 0 Resolved; Called Examples.receipt] in
  run init evs = Some s /\
  subseq (calls (trace s) ++ map data (queue s)) (submitted evs) /\
  subseq (calls (trace s)) (submitted evs).
Proof.
  split; [reflexivity|].
  exact (@printed_in_submission_order_despite_clear
           (Examples.three_submissions
              ++ [Clear; Finish (Ok tt); Enqueue Examples.receipt]) _ eq_refl).
Defined.

End PrintQueueLedger.

(** ** The manager: waits, and what a resolved [print] leaves *)

Module PrinterManagerMore.
Import Types PrinterManager PrinterManagerFacts CallLog.
Local Open Scope Z_scope.

Lemma delays_app (l1 l2 : list Call) : delays (l1 ++ l2) = delays l1 ++ delays l2.
Proof.
  induction l1 as [|c l1 IH]; simpl; [reflexivity|].
  destruct c; simpl; rewrite ?IH; reflexivity.
Qed.

Lemma disconnects_app (l1 l2 : list Call) :
  disconnects (l1 ++ l2) = (disconnects l1 + disconnects l2)%nat.
Proof.
  induction l1 as [|c l1 IH]; simpl; [reflexivity|].
  destruct c; simpl; rewrite ?IH; reflexivity.
Qed.

Lemma loop_calls_waits (k ms : Z) (d : payload) (attempt : Z)
      (lastError : option Error) (l : list Call) (r : result unit) :
  loop_calls k ms d attempt lastError l r ->
  delays l = repeat ms (length (print_results l) - 1) /\
  disconnects l = (length (print_results l) - 1)%nat.
Proof.
  induction 1 as [attempt lastError Hgt|attempt lastError Hle
                  |attempt lastError e Heq|attempt lastError e rc l r Hlt Hrc Hl IH];
    simpl; auto.
  destruct IH as [IHd IHn].
  destruct (@loop_calls_head _ _ _ _ _ _ _ Hl) as [Hhead _].
  destruct (Hhead ltac:(lia)) as (r1 & l' & ->).
  rewrite delays_app, disconnects_app, print_results_app, IHd, IHn.
  assert (Hrc' : delays rc = [ms] /\ disconnects rc = 1%nat /\ print_results rc = [])
    by (destruct Hrc; simpl; auto).
  destruct Hrc' as (-> & -> & ->). simpl. rewrite Nat.sub_0_r. auto.
Qed.

Section More.
Context {S : Type} {ops : IPrinterAdapter S}.

(** X7. Whatever the adapter does, [print] waits [retryDelayMs] once between
    two consecutive attempts and never otherwise: with n calls of the
    adapter's [print] there are n - 1 waits, each of [retryDelayMs], and
    n - 1 calls of [disconnect()] (none when no attempt was made). *)
Theorem print_waits_once_between_attempts :
  forall (d : payload) (m : PrinterManager.t S) (a : S),
    adapter m = Some a ->
    exists (r : result unit) (m' : PrinterManager.t S) (l : list Call),
      print d m = Some (r, m') /\ log m' = log m ++ l /\
      delays l = repeat (retryDelayMs (config m)) (length (print_results l) - 1) /\
      disconnects l = (length (print_results l) - 1)%nat.
Proof.
  intros d m a Ha.
  destruct (@print_calls S ops d m a Ha) as (r & m' & l & Hp & _ & Hl & Hyes & Hno).
  exists r, m', l. split; [exact Hp|]. split; [exact Hl|].
  destruct (Types.isConnected a) eqn:Hconn.
  - exact (loop_calls_waits (Hyes eq_refl)).
  - destruct (Hno eq_refl) as (rc & l' & -> & _ & Hcase). simpl.
    destruct rc as [u|e].
    + exact (loop_calls_waits Hcase).
    + destruct Hcase as [_ ->]. simpl. auto.
Qed.

(** A [print] that resolved ended with a call of the adapter's [print] that
    resolved. *)
Lemma retry_loop_resolved (d : payload) (fuel : nat) :
  forall (attempt : Z) (lastError : option Error) (m m' : PrinterManager.t S),
    retry_loop fuel d attempt lastError m = Some (Ok tt, m') ->
    exists m0 a0 a', adapter m0 = Some a0 /\ Types.print d a0 = (Ok tt, a') /\
                     adapter m' = Some a'.
Proof.
  induction fuel as [|fuel IH]; intros attempt lastError m m' H; simpl in H.
  - destruct (attempt <=? maxRetries (config m)); discriminate.
  - destruct (attempt <=? maxRetries (config m)); [|discriminate].
    unfold adapter_print in H at 1.
    destruct (adapter m) as [a|] eqn:Ha.
    + destruct (Types.print d a) as [[[]|e] a1] eqn:Hp.
      * injection H as <-. exists m, a, a1. auto.
      * destruct (after_failure attempt _) as [[u|e'] m2] eqn:Haf.
        -- apply (IH _ _ _ _ H).
        -- discriminate.
    + destruct (after_failure attempt m) as [[u|e'] m2] eqn:Haf.
      * apply (IH _ _ _ _ H).
      * discriminate.
Qed.

Lemma print_resolved (d : payload) (m m' : PrinterManager.t S) :
  print d m = Some (Ok tt, m') ->
  exists m0 a0 a', adapter m0 = Some a0 /\ Types.print d a0 = (Ok tt, a') /\
                   adapter m' = Some a'.
Proof.
  unfold print. destruct (adapter m) as [a|]; [|discriminate].
  destruct (if negb (Types.isConnected a) then connect m else (Ok tt, m))
    as [[u|e] m1]; [|discriminate].
  apply retry_loop_resolved.
Qed.

End More.

Lemma device_print_resolved_connected (d : payload) (s s' : Device) :
  Types.print d s = (Ok tt, s') -> Types.isConnected s' = true.
Proof.
  destruct s as [a w]. destruct a as [a|a|a]; simpl;
    unfold adapter_isConnected; simpl.
  - unfold MockAdapter.print, BaseAdapter.ensureConnected, MockAdapter.isConnected.
    destruct (MockAdapter.connected a) eqn:Hc; simpl; intros H; [|discriminate].
    injection H as <-. exact Hc.
  - unfold USBAdapter.print, BaseAdapter.ensureConnected, USBAdapter.isConnected.
    destruct (USBAdapter.connected a) eqn:Hc; simpl; [|discriminate].
    destruct (USBAdapter.printer a) as [p|]; [|discriminate].
    destruct (World.usb_execute _ w) as [[msg|] w1]; simpl; intros H; [discriminate|].
    injection H as <-. reflexivity.
  - unfold SerialAdapter.print, BaseAdapter.ensureConnected, SerialAdapter.isConnected.
    destruct (SerialAdapter.connected a) eqn:Hc; simpl; [|discriminate].
    destruct (SerialAdapter.port a) as [h|]; [|discriminate].
    destruct (World.serial_isOpen h w); simpl; [|discriminate].
    destruct (World.serial_write h _ w) as [[msg|] w1]; [discriminate|].
    destruct (World.serial_drain h w1) as [[msg|] w2]; intros H; [discriminate|].
    injection H as <-. exact Hc.
Qed.

(** X8. With any of the three adapters: when [print] resolves, the manager
    says it is connected. *)
Theorem resolved_print_leaves_manager_connected :
  forall (d : payload) (m m' : PrinterManager.t Device),
    print d m = Some (Ok tt, m') ->
    PrinterManager.isConnected m' = true.
Proof.
  intros d m m' H.
  destruct (print_resolved d m H) as (m0 & a0 & a' & _ & Hp & Ha').
  unfold PrinterManager.isConnected. rewrite Ha'.
  exact (device_print_resolved_connected d a0 Hp).
Qed.

Lemma resolved_print_leaves_manager_connected_witness :
  exists m',
    print Examples.receipt (Examples.manager_fresh 1 []) = Some (Ok tt, m') /\
    PrinterManager.isConnected m' = true.
Proof.
  eexists. split; [reflexivity|].
  exact (@resolved_print_leaves_manager_connected
           Examples.receipt (Examples.manager_fresh 1 []) _ eq_refl).
Defined.

Lemma print_waits_once_between_attempts_witness :
  let m := Examples.manager_connected 2 Examples.script_two_failures in
  let d := Examples.receipt in
  adapter m = Some (Examples.device_connected Examples.script_two_failures) /\
  exists (r : result unit) (m' : PrinterManager.t Device) (l : list Call),
    print d m = Some (r, m') /\ log m' = log m ++ l /\
    delays l = repeat (retryDelayMs (config m)) (length (print_results l) - 1) /\
    disconnects l = (length (print_results l) - 1)%nat.
Proof.
  split; [reflexivity|].
  exact (@print_waits_once_between_attempts Device Device_adapter
           Examples.receipt
           (Examples.manager_connected 2 Examples.script_two_failures)
           (Examples.device_connected Examples.script_two_failures) eq_refl).
Defined.

(** What [print] does with the simulation adapter. *)
Lemma mock_print_run :
  forall (d : payload) (a : MockAdapter.t) (w : World.t)
         (cfg : PrinterConfig) (lg : list Call),
    1 <= maxRetries cfg ->
    exists m' a' w',
      print d (PrinterManager.mk (Some (Mock a, w)) cfg lg) = Some (Ok tt, m') /\
      adapter m' = Some (Mock a', w') /\
      MockAdapter.connected a' = true /\
      PrinterManager.config m' = cfg /\
      log m' = lg ++ (if MockAdapter.connected a then [] else [CallConnect (Ok tt)])
                  ++ [CallPrint d (Ok tt)] /\
      World.io w' = World.io w
                    ++ (if MockAdapter.connected a then []
                        else [World.Sleep (MockAdapter.delayMs a)])
                    ++ [World.ConsoleLog d; World.Sleep (MockAdapter.delayMs a)].
Proof.
  intros d a w cfg lg Hk. unfold print. simpl.
  unfold adapter_isConnected, MockAdapter.isConnected. simpl.
  assert (Hfuel : exists fuel, Z.to_nat (maxRetries cfg) = Datatypes.S fuel)
    by (exists (Nat.pred (Z.to_nat (maxRetries cfg))); lia).
  destruct Hfuel as (fuel & Hfuel).
  assert (Hle : (1 <=? maxRetries cfg) = true) by (apply Z.leb_le; exact Hk).
  destruct (MockAdapter.connected a) eqn:Hc; simpl.
  - rewrite Hfuel. simpl. rewrite Hle.
    unfold adapter_print. simpl.
    unfold MockAdapter.print, BaseAdapter.ensureConnected. rewrite Hc. simpl.
    eexists _, _, _. split; [reflexivity|]. simpl.
    split; [reflexivity|]. split; [exact Hc|]. split; [reflexivity|].
    split; [reflexivity|].
    simpl. rewrite <- app_assoc. reflexivity.
  - unfold connect. simpl. rewrite Hfuel. simpl. rewrite Hle.
    unfold adapter_print. simpl.
    unfold MockAdapter.print, BaseAdapter.ensureConnected. simpl.
    eexists _, _, _. split; [reflexivity|]. simpl.
    split; [reflexivity|]. split; [reflexivity|]. split; [reflexivity|].
    split; [rewrite <- app_assoc; reflexivity|].
    simpl. rewrite <- !app_assoc. reflexivity.
Qed.

(** X9. With the simulation adapter and [maxRetries >= 1], [print] always
    resolves after one call of the adapter's [print], preceded by one
    [connect()] if the adapter was not connected; the payload is written to
    the console once and nothing is retried. *)
Theorem mock_print_always_resolves :
  forall (d : payload) (a : MockAdapter.t) (w : World.t)
         (cfg : PrinterConfig) (lg : list Call),
    1 <= maxRetries cfg ->
    exists m' a' w',
      print d (PrinterManager.mk (Some (Mock a, w)) cfg lg) = Some (Ok tt, m') /\
      adapter m' = Some (Mock a', w') /\
      MockAdapter.connected a' = true /\
      log m' = lg ++ (if MockAdapter.connected a then [] else [CallConnect (Ok tt)])
                  ++ [CallPrint d (Ok tt)] /\
      World.io w' = World.io w
                    ++ (if MockAdapter.connected a then []
                        else [World.Sleep (MockAdapter.delayMs a)])
                    ++ [World.ConsoleLog d; World.Sleep (MockAdapter.delayMs a)].
Proof.
  intros d a w cfg lg Hk.
  destruct (@mock_print_run d a w cfg lg Hk)
    as (m' & a' & w' & Hp & Hm' & Hc' & _ & Hlog & Hio).
  exists m', a', w'. auto.
Qed.

Lemma mock_print_always_resolves_witness :
  let d := Examples.receipt in
  let a := MockAdapter.new (Some 10) in
  let w := Examples.world_idle [] in
  let cfg := mkConfig "mock" None None 3 10 in
  1 <= maxRetries cfg /\
  exists m' a' w',
    print d (PrinterManager.mk (Some (Mock a, w)) cfg []) = Some (Ok tt, m') /\
    adapter m' = Some (Mock a', w') /\
    MockAdapter.connected a' = true /\
    log m' = [] ++ (if MockAdapter.connected a then [] else [CallConnect (Ok tt)])
                ++ [CallPrint d (Ok tt)] /\
    World.io w' = World.io w
                  ++ (if MockAdapter.connected a then []
                      else [World.Sleep (MockAdapter.delayMs a)])
                  ++ [World.ConsoleLog d; World.Sleep (MockAdapter.delayMs a)].
Proof.
  split; [discriminate|].
  exact (@mock_print_always_resolves Examples.receipt (MockAdapter.new (Some 10))
           (Examples.world_idle []) (mkConfig "mock" None None 3 10) []
           ltac:(discriminate)).
Defined.

(** X10. The constructor succeeds exactly for the interface "mock", for
    "usb" with a printer name that is not empty, and for "serial" with a port
    name that is not empty; the manager it makes keeps the configuration,
    has made no call, is not connected and holds no open transport. *)
Theorem constructor_needs_known_interface_and_address :
  forall (cfg : PrinterConfig) (w : World.t),
    ((exists m, PrinterManager.new cfg w = Ok m) <->
     interface cfg = "mock"%string \/
     (interface cfg = "usb"%string /\
      exists n, usbName cfg = Some n /\ is_empty n = false) \/
     (interface cfg = "serial"%string /\
      exists n, serialPort cfg = Some n /\ is_empty n = false)) /\
    (forall m, PrinterManager.new cfg w = Ok m ->
               config m = cfg /\ log m = [] /\
               PrinterManager.isConnected m = false /\
               exists a, adapter m = Some (a, w) /\
                         holds_open_transport (a, w) = false).
Proof.
  intros cfg w. unfold PrinterManager.new, initializeAdapter.
  destruct (String.eqb_spec (interface cfg) "mock") as [Hm|Hm].
  { split.
    - split; [auto|]. intros _. eexists. reflexivity.
    - intros m H. injection H as <-. simpl. repeat split. eexists. split; reflexivity. }
  destruct (String.eqb_spec (interface cfg) "usb") as [Hu|Hu].
  { destruct (usbName cfg) as [n|] eqn:Hn.
    - unfold USBAdapter.new. destruct (is_empty n) eqn:He.
      + split.
        * split; [intros (m & H); discriminate|].
          intros [H|[(_ & n' & Hn' & He')|(H & _)]]; try congruence.
        * intros m H. discriminate.
      + split.
        * split; [intros _; right; left; eauto|]. intros _. eexists. reflexivity.
        * intros m H. injection H as <-. simpl. repeat split.
          eexists. split; reflexivity.
    - split.
      + split; [intros (m & H); discriminate|].
        intros [H|[(_ & n' & Hn' & _)|(H & _)]]; congruence.
      + intros m H. discriminate. }
  destruct (String.eqb_spec (interface cfg) "serial") as [Hs|Hs].
  { destruct (serialPort cfg) as [n|] eqn:Hn.
    - unfold SerialAdapter.new. destruct (is_empty n) eqn:He.
      + split.
        * split; [intros (m & H); discriminate|].
          intros [H|[(H & _)|(_ & n' & Hn' & He')]]; try congruence.
        * intros m H. discriminate.
      + split.
        * split; [intros _; right; right; eauto|]. intros _. eexists. reflexivity.
        * intros m H. injection H as <-. simpl. repeat split.
          eexists. split; reflexivity.
    - split.
      + split; [intros (m & H); discriminate|].
        intros [H|[(H & _)|(_ & n' & Hn' & _)]]; congruence.
      + intros m H. discriminate. }
  split.
  - split; [intros (m & H); discriminate|].
    intros [H|[(H & _)|(H & _)]]; congruence.
  - intros m H. discriminate.
Qed.

End PrinterManagerMore.

(** ** The adapters: how [connect], [print] and [disconnect] fit together *)

Module AdapterMore.
Import Types AdapterFacts.

(** X11. Whichever the adapter and whatever its state: [connect()] resolves
    exactly when the adapter says afterwards that it is connected; a
    [connect()] that throws leaves it not connected, also when it was
    connected before. *)
Theorem connect_resolves_iff_connected_after :
  forall s : Device,
    fst (Types.connect s) = Ok tt <-> Types.isConnected (snd (Types.connect s)) = true.
Proof.
  intros [a w]. destruct a as [a|a|a]; simpl; unfold adapter_isConnected; simpl.
  - split; reflexivity.
  - unfold USBAdapter.connect, USBAdapter.connect_failed.
    destruct (World.usb_new (USBAdapter.printerName a) w) as [[p|e] w1]; simpl.
    + destruct (World.usb_isPrinterConnected w1) as [[[|]|e] w2]; simpl;
        split; try reflexivity; discriminate.
    + split; discriminate.
  - unfold SerialAdapter.connect.
    destruct (World.serial_new w) as [[h|e] w1]; simpl.
    + destruct (World.serial_open h w1) as [[msg|] w2]; simpl;
        split; try reflexivity; discriminate.
    + split; discriminate.
Qed.

(** The writes of a [print] that gets to the port. *)
Lemma serial_print_reaches_port (d : payload) (a : SerialAdapter.t)
      (w : World.t) (h : nat) :
  SerialAdapter.connected a = true ->
  SerialAdapter.port a = Some h ->
  World.serial_isOpen h w = true ->
  World.writes (World.io (snd (snd (SerialAdapter.print d a w))))
  = World.writes (World.io w) ++ [(h, SerialAdapter.printBuffer d)].
Proof.
  intros Hc Hp Ho. unfold SerialAdapter.print, BaseAdapter.ensureConnected.
  rewrite Hc, Hp, Ho. simpl. unfold World.serial_write.
  pose proof (ask_io w) as H1.
  destruct (World.ask w) as [[msg|] w1]; simpl in *.
  - rewrite H1, writes_app. reflexivity.
  - unfold World.serial_drain.
    match goal with |- context [World.ask ?x] =>
      pose proof (ask_io x) as H2; destruct (World.ask x) as [[msg|] w2] end;
      simpl in *; rewrite H2, H1, <- app_assoc, writes_app; reflexivity.
Qed.

(** X12. On the serial adapter, a [connect()] that resolved makes the next
    [print] reach the wire: the adapter holds a port that is open, and
    [print] writes its one buffer to that port. *)
Theorem serial_connect_then_print_reaches_port :
  forall (d : payload) (a : SerialAdapter.t) (w : World.t)
         (a1 : SerialAdapter.t) (w1 : World.t),
    SerialAdapter.connect a w = (Ok tt, (a1, w1)) ->
    exists h,
      SerialAdapter.port a1 = Some h /\
      World.serial_isOpen h w1 = true /\
      World.writes (World.io (snd (snd (SerialAdapter.print d a1 w1))))
      = World.writes (World.io w1) ++ [(h, SerialAdapter.printBuffer d)].
Proof.
  intros d a w a1 w1. unfold SerialAdapter.connect.
  destruct (World.serial_new w) as [[h|e] w0] eqn:Hnew; [|discriminate].
  unfold World.serial_open.
  destruct (World.ask w0) as [[msg|] w2] eqn:Hask; [discriminate|].
  intros H. injection H as <- <-. exists h.
  assert (Ho : World.serial_isOpen h
                 (World.emit (World.SerialOpen h None)
                    (World.mk (World.script w2) (World.online w2)
                       (World.open_ports w2 ++ [h]) (World.created w2) (World.io w2)))
               = true).
  { apply isOpen_in. simpl. apply in_or_app. right. left. reflexivity. }
  split; [reflexivity|]. split; [exact Ho|].
  apply serial_print_reaches_port; [reflexivity|reflexivity|exact Ho].
Qed.

Lemma serial_connect_then_print_reaches_port_witness :
  let d := Examples.receipt in
  let a := Examples.serial_fresh in
  let w := Examples.world_idle [] in
  let a1 := SerialAdapter.mk true (Some 0%nat) "COM3" 9600 in
  let w1 := World.mk [] [] [0%nat] 1 [World.SerialNew 0; World.SerialOpen 0 None] in
  SerialAdapter.connect a w = (Ok tt, (a1, w1)) /\
  exists h,
    SerialAdapter.port a1 = Some h /\
    World.serial_isOpen h w1 = true /\
    World.writes (World.io (snd (snd (SerialAdapter.print d a1 w1))))
    = World.writes (World.io w1) ++ [(h, SerialAdapter.printBuffer d)].
Proof.
  split; [reflexivity|].
  exact (@serial_connect_then_print_reaches_port
           Examples.receipt Examples.serial_fresh (Examples.world_idle [])
           (SerialAdapter.mk true (Some 0%nat) "COM3" 9600)
           (World.mk [] [] [0%nat] 1 [World.SerialNew 0; World.SerialOpen 0 None])
           eq_refl).
Defined.



(** X14. On a USB adapter that is connected and has its printer object,
    [print] executes one job that holds the payload and nothing else,
    whatever the printer object had buffered (a job that failed earlier
    included); it resolves when the job was executed and throws "Failed to
    print: " followed by the cause otherwise; the adapter stays connected. *)
Theorem usb_print_executes_payload_alone :
  forall (d : payload) (a : USBAdapter.t) (w : World.t) (p : World.ThermalPrinter),
    USBAdapter.connected a = true ->
    USBAdapter.printer a = Some p ->
    exists (r : result unit) (a' : USBAdapter.t) (w' : World.t) (err : option string),
      USBAdapter.print d a w = (r, (a', w')) /\
      World.io w' = World.io w ++ [World.UsbExecute [d] err] /\
      r = match err with
          | None => Ok tt
          | Some msg => Err (mkError ("Failed to print: " ++ msg)%string)
          end /\
      USBAdapter.connected a' = true.
Proof.
  intros d a w p Hc Hp. unfold USBAdapter.print, BaseAdapter.ensureConnected.
  rewrite Hc, Hp. simpl. unfold World.usb_execute. simpl.
  pose proof (ask_io w) as H1.
  destruct (World.ask w) as [[msg|] w1]; simpl in *.
  - eexists _, _, _, (Some msg). split; [reflexivity|]. simpl. rewrite H1. auto.
  - eexists _, _, _, None. split; [reflexivity|]. simpl. rewrite H1. auto.
Qed.

Lemma usb_print_executes_payload_alone_witness :
  let d := Examples.receipt in
  let p := World.mkPrinter "POS-80" [Examples.receipt_A] in
  let a := USBAdapter.mk true (Some p) "POS-80" in
  let w := Examples.world_idle [Some "offline"%string] in
  USBAdapter.connected a = true /\
  USBAdapter.printer a = Some p /\
  exists (r : result unit) (a' : USBAdapter.t) (w' : World.t) (err : option string),
    USBAdapter.print d a w = (r, (a', w')) /\
    World.io w' = World.io w ++ [World.UsbExecute [d] err] /\
    r = match err with
        | None => Ok tt
        | Some msg => Err (mkError ("Failed to print: " ++ msg)%string)
        end /\
    USBAdapter.connected a' = true.
Proof.
  split; [reflexivity|]. split; [reflexivity|].
  exact (@usb_print_executes_payload_alone Examples.receipt
           (USBAdapter.mk true (Some (World.mkPrinter "POS-80" [Examples.receipt_A])) "POS-80")
           (Examples.world_idle [Some "offline"%string])
           (World.mkPrinter "POS-80" [Examples.receipt_A]) eq_refl eq_refl).
Defined.

Lemma from_utf8_ascii (d : payload) :
  Forall (fun u => 0 <= u < 0x80)%Z d -> Buffer.from_utf8 d = d.
Proof.
  induction 1 as [|u rest Hu Hrest IH]; [reflexivity|].
  cbn [Buffer.from_utf8].
  assert (Hhi : Buffer.is_high_surrogate u = false).
  { unfold Buffer.is_high_surrogate. destruct (Z.leb_spec 0xD800 u); [lia|reflexivity]. }
  assert (Hlo : Buffer.is_low_surrogate u = false).
  { unfold Buffer.is_low_surrogate. destruct (Z.leb_spec 0xDC00 u); [lia|reflexivity]. }
  rewrite Hhi, Hlo, IH. unfold Buffer.encode_code_point.
  destruct (Z.ltb_spec u 0x80); [reflexivity|lia].
Qed.

(** X15. For a receipt of ASCII characters only, the buffer the serial
    adapter writes is ESC @, the characters themselves one byte each, two
    line feeds and GS V A 0: 8 bytes more than the receipt has characters. *)
Theorem ascii_receipt_is_framed_verbatim :
  forall d : payload,
    Forall (fun u => 0 <= u < 0x80)%Z d ->
    SerialAdapter.printBuffer d
    = ([0x1B; 0x40] ++ d ++ [0x0A; 0x0A; 0x1D; 0x56; 0x41; 0x00])%Z /\
    length (SerialAdapter.printBuffer d) = (length d + 8)%nat.
Proof.
  intros d Hd. rewrite printBuffer_frame, (from_utf8_ascii Hd).
  split; [reflexivity|]. simpl. rewrite length_app. simpl. lia.
Qed.

Lemma ascii_receipt_is_framed_verbatim_witness :
  let d := Examples.receipt in
  Forall (fun u => 0 <= u < 0x80)%Z d /\
  SerialAdapter.printBuffer d
  = ([0x1B; 0x40] ++ d ++ [0x0A; 0x0A; 0x1D; 0x56; 0x41; 0x00])%Z /\
  length (SerialAdapter.printBuffer d) = (length d + 8)%nat.
Proof.
  assert (H : Forall (fun u => 0 <= u < 0x80)%Z Examples.receipt)
    by (repeat constructor; lia).
  split; [exact H|].
  exact (@ascii_receipt_is_framed_verbatim Examples.receipt H).
Defined.

(** A receipt of well-formed code units, for [printBuffer_bytes]. *)
Lemma printBuffer_bytes_witness :
  let d := [0x48; 0xE9; 0x20AC; 0xD83D; 0xDE00]%Z in
  Forall (fun u => 0 <= u < 0x10000)%Z d /\
  Forall (fun b => 0 <= b < 256)%Z (SerialAdapter.printBuffer d).
Proof.
  assert (H : Forall (fun u => 0 <= u < 0x10000)%Z [0x48; 0xE9; 0x20AC; 0xD83D; 0xDE00]%Z)
    by (repeat constructor; lia).
  split; [exact H|].
  exact (@printBuffer_bytes [0x48; 0xE9; 0x20AC; 0xD83D; 0xDE00]%Z H).
Defined.

End AdapterMore.

(** ** The service: start-up, the print key and the route [POST /print] *)

Module ServerFacts.
Import Types Server.

Lemma truthy_some (v : option string) :
  truthy v = true -> exists k, v = Some k /\ is_empty k = false.
Proof.
  destruct v as [k|]; simpl; [|discriminate].
  intros H. exists k. split; [reflexivity|]. destruct (is_empty k); [discriminate|reflexivity].
Qed.

Lemma truthy_nonempty (k : string) : is_empty k = false -> truthy (Some k) = true.
Proof. intros H. simpl. rewrite H. reflexivity. Qed.

(** A service that runs has a key that is not empty. *)
Lemma running_key (parseInt : string -> Z) (env : Env) (w : World.t)
      (key : option string) (m : PrinterManager.t Device) :
  boot parseInt env w = Running key m ->
  key = PRINT_KEY env /\
  exists k, key = Some k /\ is_empty k = false /\
            (PRINT_KEY_var env = Some k \/
             (isDevelopment env = true /\ k = "dev-key-12345"%string)).
Proof.
  unfold boot. destruct (truthy (PRINT_KEY env)) eqn:Ht; simpl.
  - destruct (PrinterManager.new (printerConfig parseInt env) w) as [m0|e]; [|discriminate].
    intros H. injection H as <- <-. split; [reflexivity|].
    destruct (truthy_some _ Ht) as (k & Hk & He). exists k.
    split; [exact Hk|]. split; [exact He|].
    unfold PRINT_KEY, or_else in Hk.
    destruct (truthy (PRINT_KEY_var env)); [left; exact Hk|].
    destruct (isDevelopment env); [|discriminate].
    injection Hk as <-. right. auto.
  - destruct (isDevelopment env) eqn:Hd; simpl; [|discriminate].
    unfold PRINT_KEY, or_else in Ht. rewrite Hd in Ht.
    destruct (truthy (PRINT_KEY_var env)) eqn:Hv; [congruence|discriminate].
Qed.

(** X17. The checks the module makes at its top level before it makes the
    queue and starts the server (lines 16-85) end the process, always with
    code 1, exactly when the service is not in development mode and has no
    PRINT_KEY, or when the constructor of the manager refuses the
    configuration; otherwise they are passed with the manager the constructor
    made and with PRINT_KEY, or the development key, to check requests
    against.  What [startServer] does afterwards is not part of this. *)
Theorem boot_exits_without_key_or_adapter :
  forall (parseInt : string -> Z) (env : Env) (w : World.t),
    (forall code, boot parseInt env w = Exit code -> code = 1%Z) /\
    (boot parseInt env w = Exit 1 <->
     (isDevelopment env = false /\ truthy (PRINT_KEY_var env) = false) \/
     (forall m, PrinterManager.new (printerConfig parseInt env) w <> Ok m)) /\
    (forall key m, boot parseInt env w = Running key m ->
                   PrinterManager.new (printerConfig parseInt env) w = Ok m /\
                   key = PRINT_KEY env).
Proof.
  intros parseInt env w. unfold boot.
  assert (Hkey : truthy (PRINT_KEY env)
                 = truthy (PRINT_KEY_var env) || isDevelopment env).
  { unfold PRINT_KEY, or_else. destruct (truthy (PRINT_KEY_var env)) eqn:Hv; simpl.
    - exact Hv.
    - destruct (isDevelopment env); reflexivity. }
  rewrite Hkey.
  destruct (negb (truthy (PRINT_KEY_var env) || isDevelopment env)
            && negb (isDevelopment env)) eqn:Hguard.
  - assert (Hd : isDevelopment env = false)
      by (destruct (isDevelopment env); [rewrite andb_false_r in Hguard; discriminate|reflexivity]).
    assert (Hv : truthy (PRINT_KEY_var env) = false)
      by (rewrite Hd in Hguard; destruct (truthy (PRINT_KEY_var env));
          [discriminate|reflexivity]).
    split; [intros code H; injection H as <-; reflexivity|].
    split; [split; auto|]. intros key m H. discriminate.
  - assert (Hnot : ~ (isDevelopment env = false /\ truthy (PRINT_KEY_var env) = false)).
    { intros [Hd Hv]. rewrite Hd, Hv in Hguard. discriminate. }
    destruct (PrinterManager.new (printerConfig parseInt env) w) as [m0|e] eqn:Hnew.
    + split; [intros code H; discriminate|]. split.
      * split; [intros H; discriminate|].
        intros [H|H]; [contradiction|]. exfalso. apply (H m0). reflexivity.
      * intros key m H. injection H as <- <-. auto.
    + split; [intros code H; injection H as <-; reflexivity|]. split.
      * split; [|reflexivity]. intros _. right. intros m Hm. discriminate.
      * intros key m H. discriminate.
Qed.

Lemma header_key_spec (req : Request) (k : string) :
  is_empty k = false ->
  (let headerKey := or_else (headers req "x-print-key") (headers req "X-Print-Key") in
   truthy headerKey
   && match headerKey with
      | Some h => String.eqb h k
      | None => false
      end = true) <->
  (headers req "x-print-key" = Some k \/
   (truthy (headers req "x-print-key") = false /\
    headers req "X-Print-Key" = Some k)).
Proof.
  intros Hk. cbv zeta. unfold or_else.
  destruct (truthy (headers req "x-print-key")) eqn:H1.
  - rewrite H1. simpl. destruct (headers req "x-print-key") as [h|]; [|discriminate].
    split.
    + intros H. apply String.eqb_eq in H. left. congruence.
    + intros [H|[H _]]; [|discriminate]. injection H as ->. apply String.eqb_refl.
  - split.
    + intros H. apply andb_true_iff in H as [_ H].
      destruct (headers req "X-Print-Key") as [h|]; [|discriminate].
      apply String.eqb_eq in H. right. split; [reflexivity|congruence].
    + intros [H|[_ H]].
      * rewrite H in H1. rewrite (truthy_nonempty _ Hk) in H1. discriminate.
      * rewrite H. rewrite (truthy_nonempty _ Hk). simpl. apply String.eqb_refl.
Qed.

(** X18. In a service that runs, the key is a string that is not empty, and
    a request is authorized exactly when it carries that key: in the header
    x-print-key, or in the header X-Print-Key when the first is missing or
    empty, or as the string [key] of a body that is an object.  A request
    without any key is never authorized. *)
Theorem running_service_authorizes_exactly_key_holders :
  forall (parseInt : string -> Z) (env : Env) (w : World.t)
         (key : option string) (m : PrinterManager.t Device),
    boot parseInt env w = Running key m ->
    exists k,
      key = Some k /\ is_empty k = false /\
      forall req : Request,
        validatePrintKey key req = true <->
        (headers req "x-print-key" = Some k \/
         (truthy (headers req "x-print-key") = false /\
          headers req "X-Print-Key" = Some k) \/
         exists data, body req = BodyObject (Text k) data).
Proof.
  intros parseInt env w key m Hboot.
  destruct (running_key parseInt env w Hboot) as (_ & k & -> & Hk & _).
  exists k. split; [reflexivity|]. split; [exact Hk|].
  intros req. unfold validatePrintKey.
  pose proof (@header_key_spec req k Hk) as Hh. cbv zeta in Hh.
  destruct (truthy (or_else (headers req "x-print-key") (headers req "X-Print-Key"))
            && match or_else (headers req "x-print-key") (headers req "X-Print-Key") with
               | Some h => String.eqb h k
               | None => false
               end) eqn:Hhead.
  - split; [|reflexivity]. intros _.
    destruct (proj1 Hh eq_refl) as [H|H]; auto.
  - split.
    + intros H. destruct (body req) as [s|f data|]; try discriminate.
      destruct f as [| |s]; try discriminate. simpl in H.
      apply String.eqb_eq in H. subst. right. right. eauto.
    + intros [H|[H|(data & H)]].
      * pose proof (proj2 Hh (or_introl H)). discriminate.
      * pose proof (proj2 Hh (or_intror H)). discriminate.
      * rewrite H. simpl. apply String.eqb_refl.
Qed.

Lemma forallb_rev {A : Type} (f : A -> bool) (l : list A) :
  forallb f (rev l) = forallb f l.
Proof.
  induction l as [|x l IH]; simpl; [reflexivity|].
  rewrite forallb_app, IH. simpl. rewrite andb_true_r. apply andb_comm.
Qed.

Lemma trimStart_nil (s : payload) :
  trimStart s = [] <-> forallb is_space s = true.
Proof.
  induction s as [|u rest IH]; simpl; [split; reflexivity|].
  destruct (is_space u); simpl; [exact IH|]. split; discriminate.
Qed.

Lemma trimStart_keeps_non_space (s : payload) :
  trimStart s <> [] -> forallb is_space (trimStart s) = false.
Proof.
  induction s as [|u rest IH]; simpl; [contradiction|].
  destruct (is_space u) eqn:Hu; [exact IH|]. intros _. simpl. rewrite Hu. reflexivity.
Qed.

(** [trim()] leaves nothing exactly of a text made of white space only. *)
Lemma trim_nil (s : payload) :
  length (trim s) = 0%nat <-> forallb is_space s = true.
Proof.
  unfold trim. rewrite length_rev. split.
  - intros H. apply length_zero_iff_nil in H. apply trimStart_nil in H.
    rewrite forallb_rev in H.
    destruct (trimStart s) as [|u r] eqn:Ht; [apply trimStart_nil; exact Ht|].
    rewrite <- Ht in H. rewrite trimStart_keeps_non_space in H; [discriminate|].
    rewrite Ht. discriminate.
  - intros H. apply trimStart_nil in H. rewrite H. reflexivity.
Qed.

Lemma submit_spec (d : payload) :
  (forall d', submit d = Enqueued d' ->
              d' = d /\ existsb (fun u => negb (is_space u)) d = true) /\
  (forall st resp, submit d = Replied st resp ->
                   st = 400%Z /\ success resp = false /\ forallb is_space d = true).
Proof.
  unfold submit.
  destruct (match d with [] => true | _ => false end
            || (length (trim d) =? 0)%nat) eqn:Hblank.
  - split; [intros d' H; discriminate|].
    intros st resp H. injection H as <- <-. split; [reflexivity|]. split; [reflexivity|].
    apply orb_true_iff in Hblank as [Hnil|Hlen].
    + destruct d; [reflexivity|discriminate].
    + apply Nat.eqb_eq in Hlen. apply trim_nil. exact Hlen.
  - split; [|intros st resp H; discriminate].
    intros d' H. injection H as <-. split; [reflexivity|].
    apply orb_false_iff in Hblank as [_ Hlen].
    apply Nat.eqb_neq in Hlen.
    destruct (forallb is_space d) eqn:Hall.
    + exfalso. apply Hlen. apply trim_nil. exact Hall.
    + clear Hlen. induction d as [|u r IH]; simpl in *; [discriminate|].
      destruct (is_space u); simpl in *; auto.
Qed.

(** The handler of the route, on a body that was parsed. *)
Lemma print_route_spec (key : option string) (req : Request) :
  (validatePrintKey key req = false ->
   exists resp, print_route key req = Replied 401 resp /\ success resp = false) /\
  (forall d, print_route key req = Enqueued d ->
             validatePrintKey key req = true /\
             (body req = BodyString d \/ exists k, body req = BodyObject k (Text d)) /\
             existsb (fun u => negb (is_space u)) d = true) /\
  (validatePrintKey key req = true ->
   forall st resp, print_route key req = Replied st resp ->
                   st = 400%Z /\ success resp = false).
Proof.
  unfold print_route.
  destruct (validatePrintKey key req) eqn:Hv; simpl.
  - split; [discriminate|].
    destruct (body req) as [s|k data|] eqn:Hb.
    + destruct (submit_spec s) as [Henq Hrep]. split.
      * intros d H. destruct (Henq d H) as [-> Hd]. auto.
      * intros _ st resp H. destruct (Hrep st resp H) as (-> & Hs & _). auto.
    + destruct data as [| |[|u rest]].
      * split; [intros d H; discriminate|].
        intros _ st resp H. injection H as <- <-. auto.
      * split; [intros d H; discriminate|].
        intros _ st resp H. injection H as <- <-. auto.
      * split; [intros d H; discriminate|].
        intros _ st resp H. injection H as <- <-. auto.
      * destruct (submit_spec (u :: rest)) as [Henq Hrep]. split.
        -- intros d H. destruct (Henq d H) as [-> Hd]. split; [reflexivity|].
           split; [right; eauto|exact Hd].
        -- intros _ st resp H. destruct (Hrep st resp H) as (-> & Hs & _). auto.
    + split; [intros d H; discriminate|].
      intros _ st resp H. injection H as <- <-. auto.
  - split; [intros _; eexists; split; reflexivity|].
    split; [intros d H; discriminate|discriminate].
Qed.

(** X19. A [POST /print] hands a text to the queue only when its body was
    parsed and the request is authorized, and then the text is the body
    itself or the string [data] of the body, unchanged, with at least one
    character that is not white space.  Of the answers given without
    printing: a request whose body the parser refuses is answered 500 by the
    error handling middleware, with the parser's message, whether it carries
    the key or not; a request that was parsed and is not authorized is
    answered 401 whatever its body; every other one is a 400; none says
    success. *)
Theorem print_route_enqueues_only_authorized_text :
  forall (key : option string) (hdrs : string -> option string)
         (parsed : result Body),
    (forall err, parsed = Err err ->
       post_print key hdrs parsed
       = Replied 500 (mkResponse false "Internal server error" (Some (message err)))) /\
    (forall b, parsed = Ok b ->
       validatePrintKey key (mkRequest hdrs b) = false ->
       exists resp, post_print key hdrs parsed = Replied 401 resp /\
                    success resp = false) /\
    (forall d, post_print key hdrs parsed = Enqueued d ->
       exists b, parsed = Ok b /\
                 validatePrintKey key (mkRequest hdrs b) = true /\
                 (b = BodyString d \/ exists k, b = BodyObject k (Text d)) /\
                 existsb (fun u => negb (is_space u)) d = true) /\
    (forall st resp, post_print key hdrs parsed = Replied st resp ->
       success resp = false /\
       (st = 500%Z <-> exists err, parsed = Err err) /\
       (st = 401%Z <-> exists b, parsed = Ok b /\
                                 validatePrintKey key (mkRequest hdrs b) = false) /\
       (st = 500%Z \/ st = 401%Z \/ st = 400%Z)).
Proof.
  intros key hdrs [b|err]; simpl.
  - destruct (print_route_spec key (mkRequest hdrs b)) as (Hno & Henq & Hyes).
    split; [intros err H; discriminate|]. split; [|split].
    + intros b' Hb Hv. injection Hb as <-. apply Hno. exact Hv.
    + intros d H. exists b. split; [reflexivity|]. apply (Henq d H).
    + intros st resp H.
      destruct (validatePrintKey key (mkRequest hdrs b)) eqn:Hv.
      * destruct (Hyes eq_refl st resp H) as [-> Hs].
        split; [exact Hs|]. split; [|split].
        -- split; [discriminate|]. intros (err & Herr). discriminate.
        -- split; [discriminate|]. intros (b' & Hb & Hv'). injection Hb as <-.
           congruence.
        -- auto.
      * destruct (Hno eq_refl) as (resp' & Hr & Hs). rewrite Hr in H.
        injection H as <- <-.
        split; [exact Hs|]. split; [|split].
        -- split; [discriminate|]. intros (err & Herr). discriminate.
        -- split; [|reflexivity]. intros _. exists b. auto.
        -- auto.
  - split; [intros err' H; injection H as <-; reflexivity|]. split; [|split].
    + intros b H. discriminate.
    + intros d H. discriminate.
    + intros st resp H. injection H as <- <-.
      split; [reflexivity|]. split; [|split].
      * split; [|reflexivity]. intros _. exists err. reflexivity.
      * split; [discriminate|]. intros (b & Hb & _). discriminate.
      * auto.
Qed.


(** A development machine with nothing configured, and one with a USB
    printer named. *)
Lemma running_service_authorizes_exactly_key_holders_witness :
  let env := mkEnv None None None None None None None None in
  let parseInt := fun _ : string => 3%Z in
  let w := Examples.world_idle [] in
  let key := Some "dev-key-12345"%string in
  let m := PrinterManager.mk (Some (Mock (MockAdapter.mk false 3), w))
                             (mkConfig "mock" None None 3 3) [] in
  boot parseInt env w = Running key m /\
  exists k,
    key = Some k /\ is_empty k = false /\
    forall req : Request,
      validatePrintKey key req = true <->
      (headers req "x-print-key" = Some k \/
       (truthy (headers req "x-print-key") = false /\
        headers req "X-Print-Key" = Some k) \/
       exists data, body req = BodyObject (Text k) data).
Proof.
  split; [reflexivity|].
  exact (@running_service_authorizes_exactly_key_holders
           (fun _ : string => 3%Z)
           (mkEnv None None None None None None None None)
           (Examples.world_idle [])
           (Some "dev-key-12345"%string)
           (PrinterManager.mk
              (Some (Mock (MockAdapter.mk false 3), Examples.world_idle []))
              (mkConfig "mock" None None 3 3) [])
           eq_refl).
Defined.


(** Why the check at start-up matters: against a key that is [undefined], a
    JSON body without [key] would pass. *)
Example undefined_key_would_match_missing_key :
  validatePrintKey None (mkRequest (fun _ => None) (BodyObject Missing (Text Examples.receipt)))
  = true.
Proof. reflexivity. Qed.

End ServerFacts.

(** ** The queue wired to the manager *)

Module WiringFacts.
Import Types PrintQueue PrintQueueFacts PrintQueueLedger Wiring.

Lemma nth_error_repeat {A : Type} (x y : A) (n i : nat) :
  nth_error (repeat x n) i = Some y -> y = x.
Proof.
  revert i. induction n as [|n IH]; intros i H; simpl in H.
  - destruct i; discriminate.
  - destruct i as [|i]; simpl in H; [congruence|]. apply (IH i H).
Qed.

(** With the simulation adapter every print in flight resolves, so the
    service goes the way of the queue whose prints all resolve. *)
Lemma mock_service_run (n : nat) :
  forall (q q' : State) (a : MockAdapter.t) (w : World.t)
         (cfg : PrinterConfig) (lg : list PrinterManager.Call),
    (1 <= maxRetries cfg)%Z ->
    run q (map Finish (repeat (Ok tt) n)) = Some q' ->
    exists m', finish_prints n (q, PrinterManager.mk (Some (Mock a, w)) cfg lg)
               = Some (q', m').
Proof.
  induction n as [|n IH]; intros q q' a w cfg lg Hk Hrun; simpl in *.
  - injection Hrun as <-. eexists. reflexivity.
  - destruct (resume (Ok tt) q) as [q1|] eqn:Hr; [|discriminate].
    assert (Ha : exists job, awaiting q = Some job).
    { unfold resume in Hr. destruct (awaiting q) as [job|]; [eauto|discriminate]. }
    destruct Ha as (job & Ha). rewrite Ha. unfold Device in *.
    destruct (@PrinterManagerMore.mock_print_run (data job) a w cfg lg Hk)
      as (m' & a' & w' & Hp & Hm' & _ & Hcfg & _).
    rewrite Hp, Hr.
    destruct m' as [ad cfg' lg']. simpl in Hm', Hcfg. subst ad cfg'.
    apply (IH q1 q' a' w' cfg lg' Hk Hrun).
Qed.

(** X21. The service with the simulation adapter and [maxRetries >= 1]:
    from every state the queue can reach, letting the pending prints run one
    after the other ends with an empty, idle queue in which the promise of
    every pending job is resolved; no job is rejected. *)
Theorem simulation_service_resolves_every_job :
  forall (evs : list Event) (q : State) (a : MockAdapter.t) (w : World.t)
         (cfg : PrinterConfig) (lg : list PrinterManager.Call),
    run init evs = Some q ->
    (1 <= maxRetries cfg)%Z ->
    exists q' m',
      finish_prints (pending q) (q, PrinterManager.mk (Some (Mock a, w)) cfg lg)
      = Some (q', m') /\
      queue q' = [] /\ processing q' = false /\
      forall h, In h (live q) -> settlements h (trace q') = [Resolved].
Proof.
  intros evs q a w cfg lg Hrun Hk.
  pose proof (reachable_Wf evs Hrun) as Hwf.
  assert (Hlen : length (repeat (Ok tt : result unit) (pending q)) = pending q)
    by apply repeat_length.
  destruct (own_outcomes (repeat (Ok tt) (pending q)) Hwf Hlen) as (q' & Hq' & Hown).
  destruct (@mock_service_run (pending q) q q' a w cfg lg Hk Hq') as (m' & Hm').
  exists q', m'. split; [exact Hm'|].
  assert (Hwf' : Wf q').
  { apply (Wf_run (map Finish (repeat (Ok tt) (pending q))) Hwf Hq'). }
  assert (Hlive : length (live q) = pending q).
  { unfold live, pending. rewrite length_app, length_map.
    destruct (awaiting q); simpl; lia. }
  assert (Hdone : pending q' = 0%nat).
  { assert (Hgen : forall n s s', run s (map Finish (repeat (Ok tt) n)) = Some s' ->
                                  (pending s' + n)%nat = pending s).
    { clear. induction n as [|n IH]; intros s s' H; simpl in H.
      - injection H as <-. lia.
      - destruct (resume (Ok tt) s) as [s1|] eqn:Hr; [|discriminate].
        pose proof (@pending_resume s s1 (Ok tt) Hr). specialize (IH s1 s' H). lia. }
    pose proof (Hgen (pending q) q q' Hq'). lia. }
  assert (Hq : queue q' = [] /\ awaiting q' = None).
  { unfold pending in Hdone. destruct (queue q'); [|simpl in Hdone; lia].
    destruct (awaiting q'); simpl in Hdone; [lia|auto]. }
  destruct Hq as [Hqueue Hawait].
  split; [exact Hqueue|]. split; [rewrite (wf_flag Hwf'), Hawait; reflexivity|].
  intros h Hin. apply In_nth_error in Hin as (i & Hi).
  assert (Hlt : (i < pending q)%nat).
  { rewrite <- Hlive. apply nth_error_Some. congruence. }
  assert (Hr : nth_error (repeat (Ok tt : result unit) (pending q)) i = Some (Ok tt)).
  { destruct (nth_error (repeat (Ok tt : result unit) (pending q)) i) as [r|] eqn:Hn.
    - rewrite (nth_error_repeat _ _ _ Hn). reflexivity.
    - apply nth_error_None in Hn. rewrite repeat_length in Hn. lia. }
  apply (Hown i h (Ok tt) Hi Hr).
Qed.

Lemma simulation_service_resolves_every_job_witness :
  let evs := Examples.three_submissions in
  let q := Examples.queue_after_three in
  let a := MockAdapter.new (Some 10%Z) in
  let w := Examples.world_idle [] in
  let cfg := mkConfig "mock" None None 3 10 in
  run init evs = Some q /\
  (1 <= maxRetries cfg)%Z /\
  exists q' m',
    finish_prints (pending q) (q, PrinterManager.mk (Some (Mock a, w)) cfg [])
    = Some (q', m') /\
    queue q' = [] /\ processing q' = false /\
    forall h, In h (live q) -> settlements h (trace q') = [Resolved].
Proof.
  split; [reflexivity|]. split; [discriminate|].
  exact (@simulation_service_resolves_every_job
           Examples.three_submissions Examples.queue_after_three
           (MockAdapter.new (Some 10%Z)) (Examples.world_idle [])
           (mkConfig "mock" None None 3 10) [] eq_refl ltac:(discriminate)).
Defined.

End WiringFacts.
